(** * webdnn: the example driver [convert_resnet.py] and the pipeline it drives

    The development has two parts.

    - [Py], [Argparse] and [Driver] embed the source file
      [src/example/convert_resnet/convert_resnet.py]: its two argument
      parsers, its two entry points [main_resnet] and [main], and every call
      they make into libraries, as a program in a small trace-and-failure
      monad.
    - [IR], [Converter] and [Generator] hold the graph-side objects that the
      driver only calls (the [graph_builder] package). *)

From Stdlib Require Import List String Ascii ZArith Bool Lia PeanoNat Permutation.
From Stdlib Require Import Strings.Byte.
Import ListNotations.
Open Scope string_scope.
Open Scope list_scope.

(** ** Python values and failures *)

Module Py.

(** The values the driver handles.  The driver never looks inside an object
    returned by a library: it only passes it on, indexes it or unpacks it.
    Such an object is therefore kept as the call that produced it, so that
    the provenance of every argument stays visible. *)
#[local] Set Warnings "-register-all".
Inductive Val : Type :=
| VNone
| VBool (b : bool)
| VInt (z : Z)
| VStr (s : string)
| VList (items : list Val)
| VCall (callee : string) (args : list Val).

(** Python truthiness, as used by [if flags.DEBUG:] and [if args.optimize:]. *)
Definition truthy (v : Val) : bool :=
  match v with
  | VNone => false
  | VBool b => b
  | VInt z => negb (z =? 0)%Z
  | VStr s => negb (s =? "")
  | VList l => match l with [] => false | _ => true end
  | VCall _ _ => true
  end.

(** [v == "s"] for a literal string [s]; opaque objects and other types
    compare unequal to a string literal. *)
Definition eq_str (v : Val) (s : string) : bool :=
  match v with
  | VStr t => t =? s
  | _ => false
  end.

(** The ways a run of the driver can stop early. *)
Inductive Failure : Type :=
| SystemExit (code : Z)                       (* raised inside [parse_args] *)
| AttributeError (name : string)              (* [args.name] with no such attribute *)
| UnboundLocalError (line : nat) (name : string)
| NotImplementedError (line : nat)
| LibraryError (callee : string) (what : string).

(** [UnboundLocalError] is a subclass of [NameError]. *)
Definition is_NameError (f : Failure) : bool :=
  match f with
  | UnboundLocalError _ _ => true
  | _ => false
  end.

End Py.
Import Py.

(** ** The argument parser

    A model of the part of Python's [argparse] that the two parsers of the
    driver use: long options with [store] and [store_true] actions,
    [choices], [type=int], string positionals, the automatic [-h]/[--help],
    exact and abbreviated option strings, [--opt=value], negative numbers as
    values, and the [--] separator, as CPython 3.6 implements them.  Every
    error ends the process with [SystemExit(2)], help with
    [SystemExit(0)]. *)

Module Argparse.

Inductive ArgType : Type := TStr | TInt.

Inductive Action : Type :=
| Store (ty : ArgType) (choices : option (list string))
| StoreTrue
| Help.

Record Optional : Type := mkOptional {
  opt_strings : list string;
  opt_dest : string;
  opt_action : Action;
  opt_default : Val
}.

Record ArgumentParser : Type := mkParser {
  optionals : list Optional;
  positionals : list string
}.

(** What [argparse.ArgumentParser()] starts from: the help option. *)
Definition help_option : Optional :=
  mkOptional ["-h"; "--help"] "help" Help VNone.

(** A [Namespace]: attribute name to value, latest binding first. *)
Definition Namespace : Type := list (string * Val).

Fixpoint getattr (ns : Namespace) (name : string) : option Val :=
  match ns with
  | [] => None
  | (k, v) :: rest => if k =? name then Some v else getattr rest name
  end.

Definition setattr (ns : Namespace) (name : string) (v : Val) : Namespace :=
  (name, v) :: ns.

(** *** Strings *)

Definition is_digit (c : ascii) : bool :=
  let n := nat_of_ascii c in ((48 <=? n) && (n <=? 57))%nat.

Fixpoint all_digits (s : string) : bool :=
  match s with
  | EmptyString => true
  | String c r => is_digit c && all_digits r
  end.

Fixpoint digits_value (acc : Z) (s : string) : Z :=
  match s with
  | EmptyString => acc
  | String c r => digits_value (10 * acc + Z.of_nat (nat_of_ascii c - 48)) r
  end.

(** [int(s)] on an optionally signed run of decimal digits; any other
    string is a [ValueError], which argparse turns into an error. *)
Definition py_int (s : string) : option Z :=
  match s with
  | EmptyString => None
  | String "-" r =>
      if all_digits r && negb (r =? "") then Some (- digits_value 0 r)%Z else None
  | String "+" r =>
      if all_digits r && negb (r =? "") then Some (digits_value 0 r) else None
  | _ => if all_digits s then Some (digits_value 0 s) else None
  end.

Fixpoint contains_char (c : ascii) (s : string) : bool :=
  match s with
  | EmptyString => false
  | String d r => Ascii.eqb c d || contains_char c r
  end.

(** [s.split(c, 1)] when [c] occurs in [s]. *)
Fixpoint split_at (c : ascii) (s : string) : option (string * string) :=
  match s with
  | EmptyString => None
  | String d r =>
      if Ascii.eqb c d then Some (EmptyString, r)
      else match split_at c r with
           | Some (a, b) => Some (String d a, b)
           | None => None
           end
  end.

(** After the leading dash, digits then optionally a dot and more digits:
    argparse's [_negative_number_matcher], ['^-\d+$|^-\d*\.\d+$']. *)
Definition looks_negative_number (s : string) : bool :=
  match s with
  | String "-" r =>
      match split_at "." r with
      | None => all_digits r && negb (r =? "")
      | Some (a, b) => all_digits a && all_digits b && negb (b =? "")
      end
  | _ => false
  end.

Definition starts_with (p s : string) : bool := String.prefix p s.

(** *** Classifying one command-line string ([_parse_optional]) *)

Inductive Token : Type :=
| TPositional (s : string)                             (* pattern letter A *)
| TOption (o : Optional) (explicit : option string)    (* pattern letter O *)
| TUnknown (s : string)                                (* O, no action: an extra *)
| TDashDash.                                           (* the first "--" *)

Definition exact_match (p : ArgumentParser) (s : string) : option Optional :=
  find (fun o => existsb (String.eqb s) (opt_strings o)) (optionals p).

(** [_get_option_tuples]: the option strings that [s] abbreviates. *)
Definition option_tuples (p : ArgumentParser) (s : string)
  : list (Optional * option string) :=
  let all := flat_map (fun o => map (fun str => (o, str)) (opt_strings o))
                      (optionals p) in
  if starts_with "--" s then
    let '(pre, explicit) :=
      match split_at "=" s with
      | Some (a, b) => (a, Some b)
      | None => (s, None)
      end in
    flat_map (fun '(o, str) =>
                if starts_with pre str then [(o, explicit)] else []) all
  else
    let short := substring 0 2 s in
    let short_explicit := substring 2 (String.length s - 2) s in
    flat_map (fun '(o, str) =>
                if str =? short then [(o, Some short_explicit)]
                else if starts_with s str then [(o, None)] else []) all.

(** [inl tt] is the error "ambiguous option". *)
Definition parse_optional (p : ArgumentParser) (s : string) : unit + Token :=
  match s with
  | EmptyString => inr (TPositional s)
  | String c _ =>
      if negb (Ascii.eqb c "-") then inr (TPositional s)
      else match exact_match p s with
           | Some o => inr (TOption o None)
           | None =>
               if (String.length s =? 1)%nat then inr (TPositional s)
               else
                 let by_equals :=
                   match split_at "=" s with
                   | Some (a, b) =>
                       match exact_match p a with
                       | Some o => Some (TOption o (Some b))
                       | None => None
                       end
                   | None => None
                   end in
                 match by_equals with
                 | Some t => inr t
                 | None =>
                     match option_tuples p s with
                     | [(o, explicit)] => inr (TOption o explicit)
                     | _ :: _ :: _ => inl tt
                     | [] =>
                         if looks_negative_number s then inr (TPositional s)
                         else if contains_char " " s then inr (TPositional s)
                         else inr (TUnknown s)
                     end
                 end
           end
  end.

(** The classification pass over [sys.argv[1:]]: everything after the first
    [--] is positional. *)
Fixpoint classify (p : ArgumentParser) (argv : list string)
  : unit + list Token :=
  match argv with
  | [] => inr []
  | s :: rest =>
      if s =? "--" then inr (TDashDash :: map TPositional rest)
      else match parse_optional p s, classify p rest with
           | inr t, inr ts => inr (t :: ts)
           | _, _ => inl tt
           end
  end.

(** *** Consuming the classified strings *)

(** [_get_value] followed by [_check_value]. *)
Definition get_value (ty : ArgType) (choices : option (list string))
                     (s : string) : option Val :=
  match (match ty with
         | TStr => Some (VStr s)
         | TInt => option_map VInt (py_int s)
         end) with
  | None => None
  | Some v =>
      match choices with
      | None => Some v
      | Some cs => if existsb (String.eqb s) cs then Some v else None
      end
  end.

(** [consume p toks pos adjacent extras ns]: [pos] are the positionals still
    to fill, [adjacent] says that the string just before was taken by a
    positional, [extras] that an unrecognised string was met.  The [--]
    separator is absorbed by a positional next to it (argparse matches a
    positional against ["-*A-*"]) and is an unrecognised string otherwise.
    The result is the exit code of the parser, or the namespace. *)
Fixpoint consume (p : ArgumentParser) (toks : list Token)
                 (pos : list string) (adjacent extras : bool) (ns : Namespace)
  : Z + Namespace :=
  match toks with
  | [] =>
      match pos with
      | _ :: _ => inl 2%Z            (* the following arguments are required *)
      | [] => if extras then inl 2%Z (* unrecognized arguments *)
              else inr ns
      end
  | TDashDash :: rest =>
      let absorbed :=
        adjacent || match rest, pos with
                    | TPositional _ :: _, _ :: _ => true
                    | _, _ => false
                    end in
      consume p rest pos false (extras || negb absorbed) ns
  | TUnknown _ :: rest => consume p rest pos false true ns
  | TPositional s :: rest =>
      match pos with
      | d :: pos' => consume p rest pos' true extras (setattr ns d (VStr s))
      | [] => consume p rest pos false true ns
      end
  | TOption o explicit :: rest =>
      match opt_action o with
      | Help => inl 0%Z
      | StoreTrue =>
          match explicit with
          | Some _ => inl 2%Z        (* ignored explicit argument *)
          | None =>
              consume p rest pos false extras
                      (setattr ns (opt_dest o) (VBool true))
          end
      | Store ty choices =>
          match explicit with
          | Some s =>
              match get_value ty choices s with
              | Some v =>
                  consume p rest pos false extras (setattr ns (opt_dest o) v)
              | None => inl 2%Z
              end
          | None =>
              match rest with
              | TPositional s :: rest' =>
                  match get_value ty choices s with
                  | Some v =>
                      consume p rest' pos false extras
                              (setattr ns (opt_dest o) v)
                  | None => inl 2%Z
                  end
              | _ => inl 2%Z         (* expected one argument *)
              end
          end
      end
  end.

(** The namespace before any string is read: every option's default (the
    help action stores nothing), positionals at [None]. *)
Definition initial_namespace (p : ArgumentParser) : Namespace :=
  map (fun o => (opt_dest o, opt_default o))
      (filter (fun o => match opt_action o with Help => false | _ => true end)
              (optionals p))
  ++ map (fun d => (d, VNone)) (positionals p).

Definition parse_args (p : ArgumentParser) (argv : list string)
  : Z + Namespace :=
  match classify p argv with
  | inl _ => inl 2%Z
  | inr toks =>
      consume p toks (positionals p) false false (initial_namespace p)
  end.

(** *** What parsing can put in a namespace *)

(** What an option can store under its destination. *)
Definition stores (o : Optional) (v : Val) : Prop :=
  match opt_action o with
  | Store ty choices => exists s, get_value ty choices s = Some v
  | StoreTrue => v = VBool true
  | Help => False
  end.

Definition token_of (p : ArgumentParser) (t : Token) : Prop :=
  match t with
  | TOption o _ => In o (optionals p)
  | _ => True
  end.

End Argparse.
Import Argparse.

(** ** The driver: [convert_resnet.py] *)

Module Driver.

(** *** The world outside the driver

    [flags.DEBUG], the directory of the script ([path.dirname(__file__)]),
    and, for every operation on a library object, whether it raises. *)
Record World : Type := mkWorld {
  DEBUG : bool;
  script_dir : string;
  raises : string -> list Val -> option string
}.

(** One operation performed on a library: the callee and its arguments. *)
Definition Event : Type := (string * list Val)%type.
Definition Trace : Type := list Event.

(** The object a library call returns when it does not raise. *)
Definition result_of (e : Event) : Val := VCall (fst e) (snd e).

(** *** Programs: a reader of the world, a writer of the trace, and failure *)

Definition M (A : Type) : Type := World -> Trace -> (Failure + A) * Trace.

Definition ret {A} (a : A) : M A := fun _ tr => (inr a, tr).

Definition bind {A B} (m : M A) (k : A -> M B) : M B :=
  fun w tr =>
    match m w tr with
    | (inl f, tr') => (inl f, tr')
    | (inr a, tr') => k a w tr'
    end.

Definition raise {A} (f : Failure) : M A := fun _ tr => (inl f, tr).

Notation "x <- m ;; k" := (bind m (fun x => k))
  (at level 61, m at next level, right associativity).
Notation "m ;; k" := (bind m (fun _ => k))
  (at level 61, right associativity).
Notation "' pat <- m ;; k" := (bind m (fun x => match x with pat => k end))
  (at level 61, pat pattern, m at next level, right associativity).

(** A call into a library: logged, then it raises or returns its result. *)
Definition call (callee : string) (args : list Val) : M Val :=
  fun w tr =>
    let tr' := tr ++ [(callee, args)] in
    match raises w callee args with
    | Some what => (inl (LibraryError callee what), tr')
    | None => (inr (VCall callee args), tr')
    end.

(** [a, b = v]: unpacking a library result of two items. *)
Definition unpack2 (v : Val) : M (Val * Val) :=
  u <- call "unpack" [v; VInt 2] ;;
  ret (VCall "item" [u; VInt 0], VCall "item" [u; VInt 1]).

(** Reading a local variable that an [if]/[elif] chain may have left
    unassigned. *)
Definition local (line : nat) (name : string) (v : option Val) : M Val :=
  match v with
  | Some x => ret x
  | None => raise (UnboundLocalError line name)
  end.

(** [args.name]. *)
Definition attr (args : Namespace) (name : string) : M Val :=
  match getattr args name with
  | Some v => ret v
  | None => raise (AttributeError name)
  end.

Definition flags_DEBUG : M bool := fun w tr => (inr (DEBUG w), tr).

(** [try: body finally: cleanup], the shape of a [with] block. *)
Definition finally {A} (body : M A) (cleanup : M unit) : M A :=
  fun w tr =>
    match body w tr with
    | (r, tr') =>
        match cleanup w tr' with
        | (inl f, tr'') => (inl f, tr'')
        | (inr _, tr'') => (r, tr'')
        end
    end.

(** [with open(p, "w") as f: body]. *)
Definition with_open (p : string) (body : Val -> M unit) : M unit :=
  f <- call "open" [VStr p; VStr "w"] ;;
  finally (body f) (call "file.close" [f] ;; ret tt).

(** [posixpath.join] of two components. *)
Definition path_join (a b : string) : string :=
  if starts_with "/" b then b
  else if (a =? "") || (match get (String.length a - 1) a with
                        | Some c => Ascii.eqb c "/"
                        | None => false
                        end)
       then a ++ b
       else a ++ "/" ++ b.

(** Line 20: [OUTPUT_DIR = path.join(path.dirname(__file__), "./output")]. *)
Definition OUTPUT_DIR : M string :=
  fun w tr => (inr (path_join (script_dir w) "./output"), tr).

(** ["prefix{}suffix".format(v)] for the values an argument can hold. *)
Definition format1 (pre suf : string) (v : Val) : string :=
  pre ++ match v with
         | VStr s => s
         | VNone => "None"
         | VBool true => "True"
         | VBool false => "False"
         | _ => "<object>"
         end ++ suf.

Definition run {A} (m : M A) (w : World) : (Failure + A) * Trace := m w [].
Definition outcome {A} (m : M A) (w : World) : Failure + A := fst (run m w).
Definition trace {A} (m : M A) (w : World) : Trace := snd (run m w).

(** *** The model classes, lines 23 to 83

    An instance is kept as [VCall cls [link1; ...]], the links in the order
    [__init__] passes them to [chainer.Chain.__init__]. *)

Definition Linear (n_in n_out : Val) : M Val := call "L.Linear" [n_in; n_out].

(** [L.Convolution2D(in, out, ksize, pad=..., stride=...)], the keyword
    arguments in the order (stride, pad) and at chainer's defaults (1, 0)
    when the source leaves them out. *)
Definition Convolution2D (c_in c_out : Val) (ksize stride pad : Z) : M Val :=
  call "L.Convolution2D" [c_in; c_out; VInt ksize; VInt stride; VInt pad].

Definition field (self : list Val) (i : nat) : Val := nth i self VNone.

(** Lines 23 to 34. *)
Definition MLP (n_units n_out : Val) : M Val :=
  l1 <- Linear (VInt 784) n_units ;;
  l2 <- Linear n_units n_units ;;
  l3 <- Linear n_units n_out ;;
  ret (VCall "MLP" [l1; l2; l3]).

Definition MLP_call (self : list Val) (x : Val) : M Val :=
  a1 <- call "__call__" [field self 0; x] ;;
  h1 <- call "F.relu" [a1] ;;
  a2 <- call "__call__" [field self 1; h1] ;;
  h2 <- call "F.relu" [a2] ;;
  call "__call__" [field self 2; h2].

(** Lines 37 to 49. *)
Definition CNN (n_units n_out : Val) : M Val :=
  conv1 <- Convolution2D (VInt 1) n_units 5 1 0 ;;
  conv2 <- Convolution2D n_units n_units 3 2 1 ;;
  conv3 <- Convolution2D n_units n_out 12 1 0 ;;
  ret (VCall "CNN" [conv1; conv2; conv3]).

Definition CNN_call (self : list Val) (x : Val) : M Val :=
  a1 <- call "__call__" [field self 0; x] ;;
  h1 <- call "F.relu" [a1] ;;
  a2 <- call "__call__" [field self 1; h1] ;;
  h2 <- call "F.relu" [a2] ;;
  call "__call__" [field self 2; h2].

(** Lines 52 to 64; [12 ** 2 * n_units] is left to the library. *)
Definition CNN2 (n_units n_out : Val) : M Val :=
  conv1 <- Convolution2D (VInt 1) n_units 5 1 0 ;;
  conv2 <- Convolution2D n_units n_units 3 2 1 ;;
  n <- call "int.__mul__" [VInt (12 ^ 2); n_units] ;;
  fc3 <- Linear n n_out ;;
  ret (VCall "CNN2" [conv1; conv2; fc3]).

Definition CNN2_call (self : list Val) (x : Val) : M Val :=
  a1 <- call "__call__" [field self 0; x] ;;
  h1 <- call "F.relu" [a1] ;;
  a2 <- call "__call__" [field self 1; h1] ;;
  h2 <- call "F.relu" [a2] ;;
  call "__call__" [field self 2; h2].

(** Lines 67 to 83. *)
Definition CNN3 (n_units n_out : Val) : M Val :=
  conv1 <- Convolution2D (VInt 1) n_units 5 1 0 ;;
  bn1 <- call "L.BatchNormalization" [n_units] ;;
  conv2 <- Convolution2D n_units n_units 3 2 1 ;;
  fc3 <- Linear n_units n_out ;;
  ret (VCall "CNN3" [conv1; bn1; conv2; fc3]).

Definition CNN3_call (self : list Val) (x : Val) : M Val :=
  a1 <- call "__call__" [field self 0; x] ;;
  b1 <- call "__call__(test=True)" [field self 1; a1] ;;
  h1 <- call "F.relu" [b1] ;;
  h2 <- call "F.max_pooling_2d" [h1; VInt 2; VInt 2] ;;
  a2 <- call "__call__" [field self 2; h2] ;;
  h3 <- call "F.relu" [a2] ;;
  h4 <- call "F.average_pooling_2d" [h3; VInt 6; VInt 1] ;;
  d <- call ".data" [h4] ;;
  s <- call ".shape" [d] ;;
  s02 <- call "__getitem__" [s; VCall "slice" [VInt 0; VInt 2]] ;;
  h5 <- call "F.reshape" [h4; s02] ;;
  call "__call__" [field self 3; h5].

(** [link(x)]: an instance of a class of this file runs its own [__call__];
    any other object is called in its library. *)
Definition apply_link (link x : Val) : M Val :=
  match link with
  | VCall cls self =>
      if cls =? "MLP" then MLP_call self x
      else if cls =? "CNN" then CNN_call self x
      else if cls =? "CNN2" then CNN2_call self x
      else if cls =? "CNN3" then CNN3_call self x
      else call "__call__" [link; x]
  | _ => call "__call__" [link; x]
  end.

(** *** The two parsers *)

(** Lines 87 to 90. *)
Definition main_resnet_parser : ArgumentParser :=
  mkParser
    [ help_option;
      mkOptional ["--model"] "model"
                 (Store TStr (Some ["vgg16"; "resnet50"])) (VStr "vgg16");
      mkOptional ["--backend"] "backend"
                 (Store TStr (Some ["webgpu"; "fallback"])) (VStr "webgpu");
      mkOptional ["--optimize"] "optimize" StoreTrue (VBool false) ]
    [].

(** Lines 142 to 147. *)
Definition main_parser : ArgumentParser :=
  mkParser
    [ help_option;
      mkOptional ["--unit"] "unit" (Store TInt None) VNone;
      mkOptional ["--backend"] "backend"
                 (Store TStr (Some ["webgpu"; "fallback"])) (VStr "webgpu");
      mkOptional ["--optimize"] "optimize" StoreTrue (VBool false) ]
    [ "model"; "model_path" ].

(** [parser.parse_args()] on [sys.argv[1:]]. *)
Definition parse (p : ArgumentParser) (argv : list string) : M Namespace :=
  match parse_args p argv with
  | inl code => raise (SystemExit code)
  | inr ns => ret ns
  end.

(** *** The stages *)

Definition CONVERT : string := "ChainerGraphConverter.convert".
Definition OPTIMIZE : string := "GeneralOptimizer.optimize".
Definition GENERATE_WEBGPU : string := "generate_webgpu_descriptor".
Definition GENERATE_FALLBACK : string := "generate_fallback_descriptor".
Definition DUMP : string := "graph_builder.optimizer.util.dump".

(** Lines 106 and 107, and 165 and 166. *)
Definition convert (chainer_cg nn_input nn_output : Val) : M Val :=
  converter <- call "ChainerGraphConverter" [] ;;
  call CONVERT [converter; chainer_cg; VList [nn_input]; VList [nn_output]].

(** Lines 112 and 113, and 169 and 170. *)
Definition optimize_if_requested (args : Namespace) (graph : Val) : M Val :=
  optimize <- attr args "optimize" ;;
  if truthy optimize then
    optimizer <- call "GeneralOptimizer" [] ;;
    call OPTIMIZE [optimizer; graph]
  else ret graph.

(** Lines 115 to 122, and 173 to 180: the same text in both entry points;
    [line] is the line of the [raise]. *)
Definition generate (line : nat) (args : Namespace) (graph : Val)
  : M (Val * Val) :=
  backend <- attr args "backend" ;;
  if eq_str backend "webgpu" then
    r <- call GENERATE_WEBGPU [graph] ;; unpack2 r
  else
    backend <- attr args "backend" ;;
    if eq_str backend "fallback" then
      r <- call GENERATE_FALLBACK [graph] ;; unpack2 r
    else raise (NotImplementedError line).

(** Lines 131 to 138, and 185 to 192. *)
Definition write_artifacts (args : Namespace) (out_dir : string)
                           (descriptor data : Val) : M unit :=
  backend <- attr args "backend" ;;
  with_open (path_join out_dir (format1 "graph_" ".json" backend))
    (fun f => call "json.dump(indent=2)" [descriptor; f] ;; ret tt) ;;
  backend <- attr args "backend" ;;
  (if eq_str backend "webgpu" then
     backend <- attr args "backend" ;;
     with_open (path_join out_dir (format1 "kernels_" ".metal" backend))
       (fun f =>
          src <- call "descriptor.concat_kernel_sources" [descriptor] ;;
          call "file.write" [f; src] ;; ret tt)
   else ret tt) ;;
  backend <- attr args "backend" ;;
  call "data.tofile"
       [data; VStr (path_join out_dir (format1 "weight_" ".bin" backend))] ;;
  ret tt.

(** Lines 124 to 138: everything [main_resnet] does once the generator has
    returned. *)
Definition save_resnet (args : Namespace) (prepared_image : option Val)
                       (nn_output descriptor data : Val) : M unit :=
  out_dir <- OUTPUT_DIR ;;
  call "os.makedirs(exist_ok=True)" [VStr out_dir] ;;
  with_open (path_join out_dir "image_nhwc.json")
    (fun f =>
       image <- local 126 "prepared_image" prepared_image ;;
       image_nhwc <- call "np.transpose" [image; VList [VInt 1; VInt 2; VInt 0]] ;;
       flat <- call "flatten" [image_nhwc] ;;
       items <- call "tolist" [flat] ;;
       call "json.dump" [items; f] ;; ret tt) ;;
  with_open (path_join out_dir "fc6.json")
    (fun f =>
       d <- call ".data" [nn_output] ;;
       items <- call "tolist" [d] ;;
       call "json.dump" [items; f] ;; ret tt) ;;
  write_artifacts args out_dir descriptor data.

(** Lines 182 to 192: the same for [main]. *)
Definition save_main (args : Namespace)
                     (dummy_output descriptor data : Val) : M unit :=
  out_dir <- OUTPUT_DIR ;;
  call "os.makedirs(exist_ok=True)" [VStr out_dir] ;;
  with_open (path_join out_dir "mnist_out.json")
    (fun f =>
       d <- call ".data" [dummy_output] ;;
       flat <- call "flatten" [d] ;;
       items <- call "tolist" [flat] ;;
       call "json.dump" [items; f] ;; ret tt) ;;
  write_artifacts args out_dir descriptor data.

(** *** [main_resnet], lines 86 to 138 *)

Definition main_resnet (argv : list string) : M unit :=
  args <- parse main_resnet_parser argv ;;
  call "import PIL.Image" [] ;;
  sample_image <-
    call "PIL.Image.open"
         [VStr "../../resources/imagenet/ILSVRC2012_val_00000001.JPEG"] ;;
  model <- attr args "model" ;;
  '(link, prepared_image, out_layer_name) <-
    (if eq_str model "vgg16" then
       l <- call "chainer.links.model.vision.vgg.VGG16Layers" [] ;;
       p <- call "chainer.links.model.vision.vgg.prepare" [sample_image] ;;
       ret (Some l, Some p, Some (VStr "fc8"))
     else
       model <- attr args "model" ;;
       if eq_str model "resnet50" then
         l <- call "chainer.links.model.vision.resnet.ResNet50Layers" [] ;;
         p <- call "chainer.links.model.vision.resnet.prepare" [sample_image] ;;
         ret (Some l, Some p, Some (VStr "fc6"))
       else ret (None, None, None)) ;;
  image <- local 103 "prepared_image" prepared_image ;;
  array <- call "np.array(dtype=np.float32)" [VList [image]] ;;
  nn_input <- call "chainer.Variable" [array] ;;
  link <- local 104 "link" link ;;
  layer <- local 104 "out_layer_name" out_layer_name ;;
  layers <- call "__call__(layers=)" [link; nn_input; VList [layer]] ;;
  nn_output <- call "__getitem__" [layers; layer] ;;
  chainer_cg <-
    call "chainer.computational_graph.build_computational_graph"
         [VList [nn_output]] ;;
  graph <- convert chainer_cg nn_input nn_output ;;
  debug <- flags_DEBUG ;;
  (if debug then call DUMP [graph] ;; ret tt else ret tt) ;;
  graph <- optimize_if_requested args graph ;;
  '(descriptor, data) <- generate 122 args graph ;;
  save_resnet args prepared_image nn_output descriptor data.

(** *** [main], lines 141 to 192 *)

Definition main (argv : list string) : M unit :=
  args <- parse main_parser argv ;;
  datasets <- call "chainer.datasets.mnist.get_mnist" [VBool false] ;;
  '(_, test_samples) <- unpack2 datasets ;;
  test_sample <- call "__getitem__" [test_samples; VInt 0] ;;
  model <- attr args "model" ;;
  '(link, dummy_input) <-
    (if eq_str model "MLP" then
       unit <- attr args "unit" ;;
       l <- MLP unit (VInt 10) ;;
       x <- call "reshape" [test_sample; VInt 1; VInt 784] ;;
       v <- call "chainer.Variable" [x] ;;
       ret (Some l, Some v)
     else
       model <- attr args "model" ;;
       if eq_str model "CNN2" then
         unit <- attr args "unit" ;;
         l <- CNN2 unit (VInt 10) ;;
         x <- call "reshape" [test_sample; VInt 1; VInt 1; VInt 28; VInt 28] ;;
         v <- call "chainer.Variable" [x] ;;
         ret (Some l, Some v)
       else
         model <- attr args "model" ;;
         if eq_str model "CNN3" then
           unit <- attr args "unit" ;;
           l <- CNN3 unit (VInt 10) ;;
           x <- call "reshape" [test_sample; VInt 1; VInt 1; VInt 28; VInt 28] ;;
           v <- call "chainer.Variable" [x] ;;
           ret (Some l, Some v)
         else ret (None, None)) ;;
  model_path <- attr args "model_path" ;;
  loaded <- local 161 "link" link ;;
  call "chainer.serializers.load_npz" [model_path; loaded] ;;
  link <- local 163 "link" link ;;
  dummy_input <- local 163 "dummy_input" dummy_input ;;
  dummy_output <- apply_link link dummy_input ;;
  chainer_cg <-
    call "chainer.computational_graph.build_computational_graph"
         [VList [dummy_output]] ;;
  graph <- convert chainer_cg dummy_input dummy_output ;;
  call DUMP [graph] ;;
  graph <- optimize_if_requested args graph ;;
  call DUMP [graph] ;;
  '(descriptor, data) <- generate 180 args graph ;;
  save_main args dummy_output descriptor data.

(** The two entry points of the file; line 196 runs [main_resnet], [main]
    is left for an importer to call. *)
Inductive EntryPoint : Type := MainResnet | Main.

Definition parser_of (e : EntryPoint) : ArgumentParser :=
  match e with
  | MainResnet => main_resnet_parser
  | Main => main_parser
  end.

Definition enter (e : EntryPoint) (argv : list string) : M unit :=
  match e with
  | MainResnet => main_resnet argv
  | Main => main argv
  end.

(** *** Reading a trace *)

Definition STAGES : list string :=
  [CONVERT; OPTIMIZE; GENERATE_WEBGPU; GENERATE_FALLBACK].

Definition is_stage (e : Event) : bool := existsb (String.eqb (fst e)) STAGES.
Definition is_dump (e : Event) : bool := fst e =? DUMP.

(** The calls of a trace that enter a pipeline stage, in order. *)
Definition stage_events (tr : Trace) : Trace := filter is_stage tr.
Definition dump_events (tr : Trace) : Trace := filter is_dump tr.

(** Whether a value is, or was computed from, the result of one of the
    calls [names]. *)
Fixpoint mentions (names : list string) (v : Val) : bool :=
  match v with
  | VList items => existsb (mentions names) items
  | VCall callee args =>
      existsb (String.eqb callee) names || existsb (mentions names) args
  | _ => false
  end.

(** The converter call: it is handed a converter object, the traced graph
    and its inputs and outputs, none of which comes out of a stage. *)
Definition is_convert (e : Event) : Prop :=
  fst e = CONVERT /\ forallb (fun a => negb (mentions STAGES a)) (snd e) = true.

(** The optimizer call on the graph [g]. *)
Definition is_optimize (g : Val) (e : Event) : Prop :=
  e = (OPTIMIZE, [VCall "GeneralOptimizer" []; g]).

(** The generator call of [backend] on the graph [g]. *)
Definition is_generate (backend : string) (g : Val) (e : Event) : Prop :=
  (backend = "webgpu" /\ e = (GENERATE_WEBGPU, [g])) \/
  (backend = "fallback" /\ e = (GENERATE_FALLBACK, [g])).

(** The stage calls a run may have made, and whether the generator was
    reached: converter; then the optimizer on the converter's graph, only
    when [optimize] is set; then the generator of [backend] on the graph of
    the stage before it. *)
Inductive Pipeline (optimize : bool) (backend : string)
  : Trace -> bool -> Prop :=
| Pipeline_not_started :
    Pipeline optimize backend [] false
| Pipeline_converted c :
    is_convert c ->
    Pipeline optimize backend [c] false
| Pipeline_optimized c o :
    optimize = true -> is_convert c -> is_optimize (result_of c) o ->
    Pipeline optimize backend [c; o] false
| Pipeline_generated c g :
    optimize = false -> is_convert c -> is_generate backend (result_of c) g ->
    Pipeline optimize backend [c; g] true
| Pipeline_optimized_generated c o g :
    optimize = true -> is_convert c -> is_optimize (result_of c) o ->
    is_generate backend (result_of o) g ->
    Pipeline optimize backend [c; o; g] true.

(** *** Properties of runs *)

Definition backend_choice (b : string) : Prop := b = "webgpu" \/ b = "fallback".

(** The namespace of [main_resnet]. *)
Record resnet_args (ns : Namespace) (model backend : string) (optimize : bool)
  : Prop := {
  resnet_model : getattr ns "model" = Some (VStr model);
  resnet_backend : getattr ns "backend" = Some (VStr backend);
  resnet_optimize : getattr ns "optimize" = Some (VBool optimize);
  resnet_model_choice : model = "vgg16" \/ model = "resnet50";
  resnet_backend_choice : backend_choice backend
}.

(** The namespace of [main]. *)
Record main_args (ns : Namespace) (model model_path : string) (unit : Val)
                 (backend : string) (optimize : bool) : Prop := {
  main_model : getattr ns "model" = Some (VStr model);
  main_model_path : getattr ns "model_path" = Some (VStr model_path);
  main_unit : getattr ns "unit" = Some unit;
  main_backend : getattr ns "backend" = Some (VStr backend);
  main_optimize : getattr ns "optimize" = Some (VBool optimize);
  main_unit_int : unit = VNone \/ exists z, unit = VInt z;
  main_backend_choice : backend_choice backend
}.

(** A computation that adds no event selected by [sel] to the trace. *)
Definition silent {A} (sel : Event -> bool) (w : World) (m : M A) : Prop :=
  forall tr, filter sel (snd (m w tr)) = filter sel tr.

(** The stage calls of a finished run follow [Pipeline], and a run that
    ends normally has reached the generator. *)
Definition in_order (optimize : bool) (backend : string)
                    (r : (Failure + unit) * Trace) : Prop :=
  exists generated,
    Pipeline optimize backend (stage_events (snd r)) generated /\
    (fst r = inr tt -> generated = true).

(** A computation that never ends in the [NotImplementedError] of the
    backend dispatch. *)
Definition safe {A} (m : M A) : Prop :=
  forall w tr line, fst (m w tr) <> inl (NotImplementedError line).

(** Lines 150 and 151: all that [main] asks of a library before it looks at
    the model name. *)
Definition dataset_calls : Trace :=
  let datasets := ("chainer.datasets.mnist.get_mnist", [VBool false]) in
  let unpacked := ("unpack", [result_of datasets; VInt 2]) in
  [ datasets; unpacked;
    ("__getitem__", [VCall "item" [result_of unpacked; VInt 1]; VInt 0]) ].

End Driver.
Import Driver.

(** ** The graph intermediate representation *)

Module IR.

Definition VarId : Type := nat.
Definition Shape : Type := list positive.

(** Modelled from the spec: the Variable of section 3, [IRVariable] here since Rocq reserves the word (the [graph_builder]
    package is not among the sources): identifier, shape, element type, and
    the constant data of a weight. *)
Record IRVariable : Type := mkVariable {
  v_id : VarId;
  v_shape : Shape;
  v_dtype : string;
  v_data : option (list byte)
}.

(** Modelled from the spec: the operator kinds section 3 names, each with
    the parameters it lists (kernel size, stride, padding, epsilon as a
    fraction, axis). *)
Inductive OpKind : Type :=
| Convolution2D (ksize stride padding : N)
| Linear
| ReLU
| BatchNorm (epsilon_num epsilon_den : N)
| Pooling (ksize stride padding : N)
| Reshape (shape : Shape)
| ElementwiseAdd
| Softmax (axis : N).

(** Modelled from the spec: the Operator of section 3. *)
Record Operator : Type := mkOperator {
  op_kind : OpKind;
  op_inputs : list VarId;
  op_outputs : list VarId
}.

(** Modelled from the spec: the Graph of section 3; [g_operators] is in
    insertion order. *)
Record Graph : Type := mkGraph {
  g_variables : list IRVariable;
  g_operators : list Operator;
  g_inputs : list VarId;
  g_outputs : list VarId
}.

Definition lookup_variable (g : Graph) (id : VarId) : option IRVariable :=
  find (fun v => v_id v =? id)%nat (g_variables g).

(** Modelled from the spec: the error kinds of section 7. *)
Inductive Error : Type :=
| UnsupportedOperator (kind : string)
| InvalidGraph
| UnsupportedBackendOperator (kind : OpKind) (backend : string)
| ShapeMismatch (op : Operator) (inputs outputs : list Shape)
| OptimizationInvariantViolation (pass : string).

Definition Result (A : Type) : Type := (Error + A)%type.

End IR.
Import IR.

(** ** The converter *)

Module Converter.

(** Modelled from the spec: the kind-specific parameters of a traced node,
    as the framework hands them over (attribute name and value). *)
Definition Params : Type := list (string * Z).

(** Modelled from the spec: one node of the computational graph trace of
    section 6. *)
Record TraceNode : Type := mkTraceNode {
  node_tag : string;
  node_inputs : list VarId;
  node_outputs : list VarId;
  node_params : Params
}.

(** Modelled from the spec: the trace handed to the converter, with the
    designated input and output Variables. *)
Record GraphTrace : Type := mkGraphTrace {
  trace_nodes : list TraceNode;
  trace_variables : list IRVariable;
  trace_inputs : list VarId;
  trace_outputs : list VarId
}.

(** The supported set: framework tag to the constructor of the IR kind. *)
Definition KindTable : Type := list (string * (Params -> OpKind)).

Fixpoint lookup_kind (table : KindTable) (tag : string)
  : option (Params -> OpKind) :=
  match table with
  | [] => None
  | (t, mk) :: rest => if t =? tag then Some mk else lookup_kind rest tag
  end.

(** Modelled from the spec: section 4.1, one node. *)
Definition convert_node (table : KindTable) (n : TraceNode) : Result Operator :=
  match lookup_kind table (node_tag n) with
  | Some mk => inr (mkOperator (mk (node_params n)) (node_inputs n) (node_outputs n))
  | None => inl (UnsupportedOperator (node_tag n))
  end.

Fixpoint convert_nodes (table : KindTable) (nodes : list TraceNode)
  : Result (list Operator) :=
  match nodes with
  | [] => inr []
  | n :: rest =>
      match convert_node table n with
      | inl e => inl e
      | inr op =>
          match convert_nodes table rest with
          | inl e => inl e
          | inr ops => inr (op :: ops)
          end
      end
  end.

(** Modelled from the spec: [ChainerGraphConverter.convert], section 4.1:
    the same operators in the same connectivity, or [UnsupportedOperator]. *)
Definition convert (table : KindTable) (t : GraphTrace) : Result Graph :=
  match convert_nodes table (trace_nodes t) with
  | inl e => inl e
  | inr ops => inr (mkGraph (trace_variables t) ops (trace_inputs t) (trace_outputs t))
  end.

(** The operator a supported node becomes: same kind tag, same inputs, same
    outputs, the parameters in the kind's payload. *)
Definition converted (table : KindTable) (n : TraceNode) (o : Operator) : Prop :=
  exists mk, lookup_kind table (node_tag n) = Some mk /\
             o = mkOperator (mk (node_params n)) (node_inputs n) (node_outputs n).

End Converter.

(** ** The backend generators *)

Module Generator.

Inductive Backend : Type := WebGPU | Fallback.

Definition backend_name (b : Backend) : string :=
  match b with
  | WebGPU => "webgpu"
  | Fallback => "fallback"
  end.

(** *** Traversal *)

Definition produced_by (ops : list Operator) (v : VarId) : bool :=
  existsb (fun o => existsb (Nat.eqb v) (op_outputs o)) ops.

(** An operator is ready when none of its inputs is still to be produced. *)
Definition ready (remaining : list Operator) (o : Operator) : bool :=
  negb (existsb (produced_by remaining) (op_inputs o)).

(** The first ready operator in insertion order, and the others in their
    order. *)
Fixpoint pick_ready (remaining before rest : list Operator)
  : option (Operator * list Operator) :=
  match rest with
  | [] => None
  | o :: rest' =>
      if ready remaining o then Some (o, rev before ++ rest')
      else pick_ready remaining (o :: before) rest'
  end.

(** Modelled from the spec: the traversal of section 4.3, a topological
    order with ties resolved by insertion order; a graph with a cycle is an
    [InvalidGraph]. *)
Fixpoint traverse (fuel : nat) (remaining : list Operator)
  : Result (list Operator) :=
  match remaining with
  | [] => inr []
  | _ :: _ =>
      match fuel with
      | O => inl InvalidGraph
      | S fuel' =>
          match pick_ready remaining [] remaining with
          | None => inl InvalidGraph
          | Some (o, others) =>
              match traverse fuel' others with
              | inl e => inl e
              | inr order => inr (o :: order)
              end
          end
      end
  end.

Definition topological_order (g : Graph) : Result (list Operator) :=
  traverse (List.length (g_operators g)) (g_operators g).

(** *** Lowering *)

(** The structural signature of an operator: kind with parameters, and the
    shapes of its inputs and outputs. *)
Definition Signature : Type := (OpKind * list Shape * list Shape)%type.

(** One entry of a Descriptor: the operator, its resolved shapes, and the
    implementation chosen for it (kernel source text for WebGPU, the name of
    a reference implementation for Fallback). *)
Record Invocation : Type := mkInvocation {
  inv_operator : Operator;
  inv_signature : Signature;
  inv_implementation : string
}.

(** Where a constant lies in the weight buffer. *)
Record WeightEntry : Type := mkWeightEntry {
  w_variable : VarId;
  w_offset : nat;
  w_length : nat
}.

(** Modelled from the spec: the Descriptor of section 3. *)
Record Descriptor : Type := mkDescriptor {
  d_backend : Backend;
  d_invocations : list Invocation;
  d_weights : list WeightEntry
}.

Fixpoint shapes_of (g : Graph) (ids : list VarId) : option (list Shape) :=
  match ids with
  | [] => Some []
  | id :: rest =>
      match lookup_variable g id, shapes_of g rest with
      | Some v, Some shapes => Some (v_shape v :: shapes)
      | _, _ => None
      end
  end.

(** What a backend brings: whether the shapes fit an operator's parameters,
    the kernel synthesizer of WebGPU, and the reference implementation that
    Fallback selects by kind. *)
Record Lowering : Type := mkLowering {
  shapes_agree : OpKind -> list Shape -> list Shape -> bool;
  synthesize_kernel : Signature -> option string;
  reference_implementation : OpKind -> option string
}.

(** Modelled from the spec: lowering one operator, section 4.3. *)
Definition lower (L : Lowering) (b : Backend) (g : Graph) (o : Operator)
  : Result Invocation :=
  match shapes_of g (op_inputs o), shapes_of g (op_outputs o) with
  | Some ins, Some outs =>
      if shapes_agree L (op_kind o) ins outs then
        let sig := (op_kind o, ins, outs) in
        match (match b with
               | WebGPU => synthesize_kernel L sig
               | Fallback => reference_implementation L (op_kind o)
               end) with
        | Some impl => inr (mkInvocation o sig impl)
        | None => inl (UnsupportedBackendOperator (op_kind o) (backend_name b))
        end
      else inl (ShapeMismatch o ins outs)
  | _, _ => inl InvalidGraph
  end.

Fixpoint lower_all (L : Lowering) (b : Backend) (g : Graph)
                   (order : list Operator) : Result (list Invocation) :=
  match order with
  | [] => inr []
  | o :: rest =>
      match lower L b g o with
      | inl e => inl e
      | inr inv =>
          match lower_all L b g rest with
          | inl e => inl e
          | inr invs => inr (inv :: invs)
          end
      end
  end.

(** *** Packing *)

(** The elements of [l], each at its first occurrence. *)
Fixpoint first_occurrences {A} (eqb : A -> A -> bool) (l : list A) : list A :=
  match l with
  | [] => []
  | x :: rest => x :: filter (fun y => negb (eqb x y)) (first_occurrences eqb rest)
  end.

Definition op_variables (o : Operator) : list VarId :=
  op_inputs o ++ op_outputs o.

(** The Variables of the lowered graph, in the order the traversal first
    meets them. *)
Definition variables_in_order (order : list Operator) : list VarId :=
  first_occurrences Nat.eqb (flat_map op_variables order).

Definition constant_data (g : Graph) (id : VarId) : option (list byte) :=
  match lookup_variable g id with
  | Some v => v_data v
  | None => None
  end.

(** The constants of the lowered graph with their data, in traversal order. *)
Definition constants_in_order (g : Graph) (order : list Operator)
  : list (VarId * list byte) :=
  flat_map (fun id => match constant_data g id with
                      | Some bytes => [(id, bytes)]
                      | None => []
                      end)
           (variables_in_order order).

(** Modelled from the spec: packing, section 4.3: the data one after the
    other, each with its offset and length. *)
Fixpoint pack (offset : nat) (constants : list (VarId * list byte))
  : list WeightEntry * list byte :=
  match constants with
  | [] => ([], [])
  | (id, bytes) :: rest =>
      let '(entries, buffer) := pack (offset + List.length bytes) rest in
      (mkWeightEntry id offset (List.length bytes) :: entries, bytes ++ buffer)
  end.

(** Modelled from the spec: a backend generator, section 4.3
    ([generate_webgpu_descriptor] and [generate_fallback_descriptor]):
    traverse, lower every operator, pack. *)
Definition generate (L : Lowering) (b : Backend) (g : Graph)
  : Result (Descriptor * list byte) :=
  match topological_order g with
  | inl e => inl e
  | inr order =>
      match lower_all L b g order with
      | inl e => inl e
      | inr invocations =>
          let '(entries, buffer) := pack 0 (constants_in_order g order) in
          inr (mkDescriptor b invocations entries, buffer)
      end
  end.

(** *** The kernel source of a WebGPU Descriptor *)

(** The kernel sources a Descriptor refers to, each once, in the order of
    first reference. *)
Definition kernel_sources (d : Descriptor) : list string :=
  first_occurrences String.eqb (map inv_implementation (d_invocations d)).

Definition newline : string := String (ascii_of_nat 10) EmptyString.

(** Modelled from the spec: [descriptor.concat_kernel_sources()]. *)
Definition concat_kernel_sources (d : Descriptor) : string :=
  String.concat newline (kernel_sources d).

(** The position of [x] in [l]. *)
Fixpoint index_of {A} (eqb : A -> A -> bool) (x : A) (l : list A) : option nat :=
  match l with
  | [] => None
  | y :: rest => if eqb x y then Some 0 else option_map S (index_of eqb x rest)
  end.

(** The kernel source entry an invocation refers to. *)
Definition kernel_entry (d : Descriptor) (inv : Invocation) : option nat :=
  index_of String.eqb (inv_implementation inv) (kernel_sources d).

(** The bytes of [buffer] from [offset], [len] of them. *)
Definition slice (buffer : list byte) (offset len : nat) : list byte :=
  firstn len (skipn offset buffer).

(** *** Reading a Descriptor *)

(** The signature of an operator of [g], when its Variables are in [g]. *)
Definition signature (g : Graph) (o : Operator) : option Signature :=
  match shapes_of g (op_inputs o), shapes_of g (op_outputs o) with
  | Some ins, Some outs => Some (op_kind o, ins, outs)
  | _, _ => None
  end.

(** An invocation of [b] for the operator [o] of [g]. *)
Definition lowered (L : Lowering) (b : Backend) (g : Graph)
                   (o : Operator) (inv : Invocation) : Prop :=
  inv_operator inv = o /\
  signature g o = Some (inv_signature inv) /\
  match b with
  | WebGPU => synthesize_kernel L (inv_signature inv)
  | Fallback => reference_implementation L (op_kind o)
  end = Some (inv_implementation inv).

(** The entry [e] places the constant [c] in [buffer], which starts at
    [offset] of the whole. *)
Definition placed (offset : nat) (buffer : list byte)
                  (c : VarId * list byte) (e : WeightEntry) : Prop :=
  w_variable e = fst c /\
  w_length e = List.length (snd c) /\
  offset <= w_offset e /\
  w_offset e + w_length e <= offset + List.length buffer /\
  slice buffer (w_offset e - offset) (w_length e) = snd c.

End Generator.

(** ** Sample inputs *)

Module Samples.

(** A world with [flags.DEBUG] off in which every library call returns. *)
Definition quiet_world : World :=
  mkWorld false "example/convert_resnet" (fun _ _ => None).

Definition resnet_argv : list string := ["--optimize"; "--backend"; "fallback"].
Definition mnist_argv : list string := ["CNN3"; "cnn3.npz"; "--backend=fallback"].

(** [CNN] is a class of the file, and no model name of [main]. *)
Definition cnn_argv : list string := ["CNN"; "cnn.npz"; "--unit"; "16"].

Definition namespace_of (p : ArgumentParser) (argv : list string) : Namespace :=
  match parse_args p argv with
  | inr ns => ns
  | inl _ => []
  end.

(** Two fully connected layers, each followed by a ReLU; the second layer
    was inserted first.  Variables 1 and 4 are the weights. *)
Definition two_layers : Graph :=
  let activation id := mkVariable id [1; 4]%positive "float32" None in
  let weight id data := mkVariable id [4; 4]%positive "float32" (Some data) in
  mkGraph
    [ activation 0; weight 1 [x01; x02; x03; x04]; activation 2; activation 3;
      weight 4 [x0a; x0b; x0c]; activation 5; activation 6 ]
    [ mkOperator Linear [3; 4] [5];
      mkOperator Linear [0; 1] [2];
      mkOperator ReLU [2] [3];
      mkOperator ReLU [5] [6] ]
    [0] [6].

Definition kind_name (k : OpKind) : string :=
  match k with
  | Convolution2D _ _ _ => "convolution_2d"
  | Linear => "linear"
  | ReLU => "relu"
  | BatchNorm _ _ => "batch_norm"
  | Pooling _ _ _ => "pooling"
  | Reshape _ => "reshape"
  | ElementwiseAdd => "elementwise_add"
  | Softmax _ => "softmax"
  end.

(** A backend pair in which WebGPU has no kernel for [Softmax]. *)
Definition sample_lowering : Generator.Lowering :=
  Generator.mkLowering
    (fun _ _ _ => true)
    (fun '(k, _, _) =>
       match k with
       | Softmax _ => None
       | _ => Some ("kernel void " ++ kind_name k ++ "()")%string
       end)
    (fun k => Some (kind_name k)).

(** A trace of three supported nodes, and the same with a custom layer. *)
Definition sample_table : Converter.KindTable :=
  [ ("Convolution2DFunction", fun _ => Convolution2D 5 1 0);
    ("ReLU", fun _ => ReLU);
    ("LinearFunction", fun _ => Linear) ].

Definition conv_relu_linear : Converter.GraphTrace :=
  Converter.mkGraphTrace
    [ Converter.mkTraceNode "Convolution2DFunction" [0; 1] [2] [];
      Converter.mkTraceNode "ReLU" [2] [3] [];
      Converter.mkTraceNode "LinearFunction" [3; 4] [5] [] ]
    [] [0] [5].

Definition with_custom_layer : Converter.GraphTrace :=
  Converter.mkGraphTrace
    [ Converter.mkTraceNode "Convolution2DFunction" [0; 1] [2] [];
      Converter.mkTraceNode "MyLayer" [2] [3] [];
      Converter.mkTraceNode "LinearFunction" [3; 4] [5] [] ]
    [] [0] [5].

End Samples.

(** ** What a run can be observed to do *)

Module Observations.

(** The same world with every library call returning. *)
Definition calm (w : World) : World :=
  mkWorld (DEBUG w) (script_dir w) (fun _ _ => None).

(** The value of [OUTPUT_DIR] in a world. *)
Definition output_dir (w : World) : string := path_join (script_dir w) "./output".

(** A computation that only appends to the trace, and nothing selected by
    [sel]. *)
Definition appends {A} (sel : Event -> bool) (w : World) (m : M A) : Prop :=
  forall tr, exists more, snd (m w tr) = tr ++ more /\ filter sel more = [].

(** A computation whose failures all satisfy [allowed]. *)
Definition fails_only {A} (allowed : Failure -> Prop) (m : M A) : Prop :=
  forall w tr f, fst (m w tr) = inl f -> allowed f.

Definition library_error (f : Failure) : Prop :=
  exists callee what, f = LibraryError callee what.

(** A computation that, when it returns, does the same in the calm world. *)
Definition unaffected {A} (m : M A) : Prop :=
  forall w tr a tr', m w tr = (inr a, tr') -> m (calm w) tr = (inr a, tr').


(** How the two results of a generator are reached from what it returns
    ([descriptor, data = generate(graph)]). *)
Definition descriptor_of (r : Val) : Val :=
  VCall "item" [VCall "unpack" [r; VInt 2]; VInt 0].
Definition data_of (r : Val) : Val :=
  VCall "item" [VCall "unpack" [r; VInt 2]; VInt 1].

(** The files an entry point writes before the generator's artifacts. *)
Definition own_files (e : EntryPoint) : list string :=
  match e with
  | MainResnet => ["image_nhwc.json"; "fc6.json"]
  | Main => ["mnist_out.json"]
  end.

(** The artifacts of a backend: lines 131 to 138 and 185 to 192. *)
Definition artifact_files (backend : string) : list string :=
  (("graph_" ++ backend ++ ".json")%string
   :: (if backend =? "webgpu"
       then [("kernels_" ++ backend ++ ".metal")%string]
       else []))
  ++ [("weight_" ++ backend ++ ".bin")%string].

(** The call of a trace that enters a generator. *)
Definition generator_call (tr : Trace) : option Event :=
  find (fun e => (fst e =? GENERATE_WEBGPU) || (fst e =? GENERATE_FALLBACK)) tr.

(** The first call of [callee] in a trace. *)
Definition first_call (callee : string) (tr : Trace) : option Event :=
  find (fun e => fst e =? callee) tr.

(** In [tr], no event selected by [later] comes before the first event
    selected by [gate]. *)
Definition precedes (gate later : Event -> bool) (tr : Trace) : Prop :=
  forall before e after,
    tr = before ++ e :: after -> later e = true -> existsb gate before = true.

(** A computation that takes a trace satisfying [P] to one satisfying [Q],
    however it ends. *)
Definition keeps {A} (w : World) (P Q : Trace -> Prop) (m : M A) : Prop :=
  forall tr, P tr -> Q (snd (m w tr)).



(** Line 161: [chainer.serializers.load_npz(args.model_path, link)]. *)
Definition is_load_npz (e : Event) : bool :=
  fst e =? "chainer.serializers.load_npz".

(** The calls of a forward pass through a model of this file. *)
Definition is_forward (e : Event) : bool :=
  existsb (String.eqb (fst e))
          ["__call__"; "__call__(test=True)"; "F.relu"; "F.max_pooling_2d";
           "F.average_pooling_2d"; "F.reshape"].

(** Opening and closing a file. *)
Definition is_handle_event (e : Event) : bool :=
  (fst e =? "open") || (fst e =? "file.close").

(** A trace in which every file that was opened has been closed: an [open]
    that raises opens nothing; one that returns is followed by calls that
    open and close nothing, and then by the [close] of its file. *)
Inductive Closed (w : World) : Trace -> Prop :=
| Closed_nil : Closed w []
| Closed_other tr e :
    Closed w tr -> is_handle_event e = false -> Closed w (tr ++ [e])
| Closed_failed_open tr args what :
    Closed w tr -> raises w "open" args = Some what ->
    Closed w (tr ++ [("open", args)])
| Closed_with tr args body :
    Closed w tr -> raises w "open" args = None ->
    filter is_handle_event body = [] ->
    Closed w (tr ++ ("open", args) :: body
                 ++ [("file.close", [VCall "open" args])]).

(** A call that writes where, or asks for what, a run with [backend] from
    entry point [e] has no business with: a file outside the known ones of
    [OUTPUT_DIR] or not opened for writing, or the kernel sources of a
    backend other than WebGPU. *)
Definition stray (w : World) (e : EntryPoint) (backend : string) (ev : Event)
  : bool :=
  if fst ev =? "open" then
    match snd ev with
    | [VStr p; VStr mode] =>
        negb ((mode =? "w") &&
              existsb (fun n => p =? path_join (output_dir w) n)
                      (own_files e ++ artifact_files backend))
    | _ => true
    end
  else if fst ev =? "data.tofile" then
    match snd ev with
    | [_; VStr p] =>
        negb (p =? path_join (output_dir w) ("weight_" ++ backend ++ ".bin"))
    | _ => true
    end
  else if fst ev =? "descriptor.concat_kernel_sources" then
    negb (backend =? "webgpu")
  else false.

(** The links a run applied to a variable, in the order of their calls. *)
Definition applied_links (tr : Trace) : list Val :=
  map (fun e => hd VNone (snd e))
      (filter (fun e => (fst e =? "__call__") || (fst e =? "__call__(test=True)"))
              tr).

(** The arguments of the calls [json.dump(obj, f)] of a trace, in order. *)
Definition json_dumps (tr : Trace) : list (list Val) :=
  map snd (filter (fun e => fst e =? "json.dump") tr).

(** The file object that [open(path.join(OUTPUT_DIR, name), "w")] returns. *)
Definition output_file (w : World) (name : string) : Val :=
  VCall "open" [VStr (path_join (output_dir w) name); VStr "w"].

End Observations.
Import Observations.

(** * Facts about the argument parser *)

Module ArgparseFacts.

Lemma getattr_setattr (ns : Namespace) (d : string) (v : Val) (name : string) :
  getattr (setattr ns d v) name = if d =? name then Some v else getattr ns name.
Proof. reflexivity. Qed.

Lemma exact_match_In p s o : exact_match p s = Some o -> In o (optionals p).
Proof. unfold exact_match. intros H. apply find_some in H. tauto. Qed.

Lemma option_tuples_In p s o e :
  In (o, e) (option_tuples p s) -> In o (optionals p).
Proof.
  unfold option_tuples.
  set (all := flat_map _ (optionals p)).
  assert (Hall : forall o' str, In (o', str) all -> In o' (optionals p)).
  { intros o' str Hin. apply in_flat_map in Hin as (o'' & Ho & Hs).
    apply in_map_iff in Hs as (x & Hx & _). now inversion Hx; subst. }
  destruct (starts_with "--" s).
  - destruct (split_at "=" s) as [[a b]|]; intros Hin;
      apply in_flat_map in Hin as ([o' str] & Hin & Hsel);
      destruct (starts_with _ str); simpl in Hsel; try tauto;
      destruct Hsel as [Heq|[]]; inversion Heq; subst; eauto.
  - intros Hin. apply in_flat_map in Hin as ([o' str] & Hin & Hsel).
    destruct (str =? substring 0 2 s); [|destruct (starts_with s str)];
      simpl in Hsel; try tauto;
      destruct Hsel as [Heq|[]]; inversion Heq; subst; eauto.
Qed.

Lemma parse_optional_token p s t : parse_optional p s = inr t -> token_of p t.
Proof.
  unfold parse_optional. destruct s as [|c r]; [now intros [= <-]|].
  destruct (negb (Ascii.eqb c "-")); [now intros [= <-]|].
  destruct (exact_match p (String c r)) as [o|] eqn:He.
  { intros [= <-]. simpl. eauto using exact_match_In. }
  destruct (String.length (String c r) =? 1)%nat; [now intros [= <-]|].
  destruct (split_at "=" (String c r)) as [[a b]|].
  - destruct (exact_match p a) as [o|] eqn:Ha.
    { intros [= <-]. simpl. eauto using exact_match_In. }
    destruct (option_tuples p (String c r)) as [|[o e] [|]] eqn:Ht.
    + destruct (looks_negative_number _); [now intros [= <-]|].
      destruct (contains_char _ _); now intros [= <-].
    + intros [= <-]. simpl. eapply option_tuples_In. rewrite Ht. now left.
    + discriminate.
  - destruct (option_tuples p (String c r)) as [|[o e] [|]] eqn:Ht.
    + destruct (looks_negative_number _); [now intros [= <-]|].
      destruct (contains_char _ _); now intros [= <-].
    + intros [= <-]. simpl. eapply option_tuples_In. rewrite Ht. now left.
    + discriminate.
Qed.

Lemma classify_tokens p argv toks :
  classify p argv = inr toks -> Forall (token_of p) toks.
Proof.
  revert toks. induction argv as [|s rest IH]; simpl; intros toks.
  - intros [= <-]. constructor.
  - destruct (s =? "--").
    + intros [= <-]. constructor; [exact I|].
      apply Forall_forall. intros t Ht.
      apply in_map_iff in Ht as (x & <- & _). exact I.
    + destruct (parse_optional p s) as [|t] eqn:Hp; [discriminate|].
      destruct (classify p rest) as [|ts]; [discriminate|].
      intros [= <-]. constructor; eauto using parse_optional_token.
Qed.

(** An invariant of the namespace, indexed by the positionals still to
    fill, survives [consume]; a run that succeeds has filled them all. *)
Section Invariant.
Variable p : ArgumentParser.
Variable Inv : list string -> Namespace -> Prop.
Hypothesis Inv_positional :
  forall d pos ns s, Inv (d :: pos) ns -> Inv pos (setattr ns d (VStr s)).
Hypothesis Inv_optional :
  forall pos ns o v, In o (optionals p) -> stores o v -> Inv pos ns ->
                     Inv pos (setattr ns (opt_dest o) v).

Lemma consume_invariant (n : nat) :
  forall toks pos adjacent extras ns r,
    List.length toks <= n ->
    Forall (token_of p) toks ->
    Inv pos ns ->
    consume p toks pos adjacent extras ns = inr r ->
    Inv [] r.
Proof.
  induction n as [|n IH]; intros toks pos adjacent extras ns r Hlen Htoks HI.
  - destruct toks; [|simpl in Hlen; lia].
    simpl. destruct pos; [|discriminate].
    destruct extras; [discriminate|]. now intros [= <-].
  - destruct toks as [|t rest].
    { simpl. destruct pos; [|discriminate].
      destruct extras; [discriminate|]. now intros [= <-]. }
    simpl in Hlen. inversion Htoks as [|? ? Ht Hrest]; subst.
    destruct t as [s|o explicit|s|]; simpl.
    + destruct pos as [|d pos'].
      * apply IH; auto; lia.
      * apply IH; auto; lia.
    + simpl in Ht.
      destruct (opt_action o) as [ty choices| |] eqn:Hact; [| |discriminate].
      * destruct explicit as [s|].
        -- destruct (get_value ty choices s) as [v|] eqn:Hv; [|discriminate].
           apply IH; auto; [lia|].
           apply Inv_optional; auto. unfold stores. rewrite Hact. eauto.
        -- destruct rest as [|[s| | |] rest']; try discriminate.
           destruct (get_value ty choices s) as [v|] eqn:Hv; [|discriminate].
           inversion Hrest; subst.
           apply IH; auto; [simpl in Hlen; lia|].
           apply Inv_optional; auto. unfold stores. rewrite Hact. eauto.
      * destruct explicit; [discriminate|].
        apply IH; auto; [lia|].
        apply Inv_optional; auto. unfold stores. now rewrite Hact.
    + apply IH; auto; lia.
    + apply IH; auto; lia.
Qed.

Lemma parse_args_invariant (argv : list string) (r : Namespace) :
  Inv (positionals p) (initial_namespace p) ->
  parse_args p argv = inr r ->
  Inv [] r.
Proof.
  unfold parse_args. intros H0.
  destruct (classify p argv) as [|toks] eqn:Hc; [discriminate|].
  intros Hr. eapply (consume_invariant (List.length toks));
    eauto using classify_tokens.
Qed.
End Invariant.

(** The parsers on a few argument vectors. *)
Example parse_backend_fallback :
  option_map (fun ns => getattr ns "backend")
             (match parse_args main_resnet_parser ["--backend=fallback"] with
              | inr ns => Some ns
              | inl _ => None
              end)
  = Some (Some (VStr "fallback")).
Proof. reflexivity. Qed.

Example parse_backend_outside_choices :
  parse_args main_resnet_parser ["--backend"; "metal"] = inl 2%Z.
Proof. reflexivity. Qed.

Example parse_help : parse_args main_parser ["MLP"; "-h"] = inl 0%Z.
Proof. reflexivity. Qed.

Example parse_model_is_not_checked :
  option_map (fun ns => getattr ns "model")
             (match parse_args main_parser ["CNN"; "cnn.npz"] with
              | inr ns => Some ns
              | inl _ => None
              end)
  = Some (Some (VStr "CNN")).
Proof. reflexivity. Qed.

End ArgparseFacts.

(** * Facts about the driver *)

Module DriverFacts.
Import ArgparseFacts.

(** ** What the two parsers hand to the driver *)

Lemma get_value_choice s v c1 c2 :
  get_value TStr (Some [c1; c2]) s = Some v ->
  v = VStr s /\ (s = c1 \/ s = c2).
Proof.
  unfold get_value. simpl.
  destruct (s =? c1) eqn:H1; simpl.
  - intros [= <-]. apply String.eqb_eq in H1. auto.
  - destruct (s =? c2) eqn:H2; simpl; [|discriminate].
    intros [= <-]. apply String.eqb_eq in H2. auto.
Qed.

Ltac option_cases Hin Hst :=
  simpl in Hin; unfold stores in Hst;
  repeat (destruct Hin as [<-|Hin]; [simpl in Hst|]); try contradiction.

Lemma main_resnet_parser_args (argv : list string) (ns : Namespace) :
  parse_args main_resnet_parser argv = inr ns ->
  exists model backend optimize, resnet_args ns model backend optimize.
Proof.
  intros H.
  apply (parse_args_invariant main_resnet_parser
           (fun pos ns => pos = [] /\
              exists m b o, resnet_args ns m b o)) in H.
  - tauto.
  - intros d pos ns' s [Hpos _]. discriminate.
  - intros pos ns' o v Hin Hst [Hpos (m & b & op & [Hm Hb Ho Hmc Hbc])].
    split; [assumption|].
    option_cases Hin Hst.
    + destruct Hst as (s & Hs). apply get_value_choice in Hs as [-> Hc].
      exists s, b, op. now constructor.
    + destruct Hst as (s & Hs). apply get_value_choice in Hs as [-> Hc].
      exists m, s, op. now constructor.
    + subst v. exists m, b, true. now constructor.
  - split; [reflexivity|].
    exists "vgg16", "webgpu", false. constructor; unfold backend_choice; auto.
Qed.

Lemma get_value_int s v : get_value TInt None s = Some v -> exists z, v = VInt z.
Proof.
  unfold get_value. destruct (py_int s) as [z|]; simpl; [|discriminate].
  intros [= <-]. now exists z.
Qed.

Lemma main_parser_args (argv : list string) (ns : Namespace) :
  parse_args main_parser argv = inr ns ->
  exists model model_path unit backend optimize,
    main_args ns model model_path unit backend optimize.
Proof.
  intros H.
  apply (parse_args_invariant main_parser
           (fun pos ns =>
              (exists u b o, getattr ns "unit" = Some u /\
                             getattr ns "backend" = Some (VStr b) /\
                             getattr ns "optimize" = Some (VBool o) /\
                             (u = VNone \/ exists z, u = VInt z) /\
                             backend_choice b) /\
              (pos = ["model"; "model_path"] \/
               (pos = ["model_path"] /\
                exists m, getattr ns "model" = Some (VStr m)) \/
               (pos = [] /\
                exists m mp, getattr ns "model" = Some (VStr m) /\
                             getattr ns "model_path" = Some (VStr mp))))) in H.
  - destruct H as [(u & b & o & Hu & Hb & Ho & Hi & Hc)
                     [H|[[H _]|[_ (m & mp & Hm & Hp)]]]];
      try discriminate.
    exists m, mp, u, b, o. now constructor.
  - intros d pos ns' s [(u & b & o & Hu & Hb & Ho & Hi & Hc) Hpos]. split.
    + destruct Hpos as [Hpos|[[Hpos _]|[Hpos _]]]; try discriminate;
        injection Hpos as -> ->; exists u, b, o; auto.
    + destruct Hpos as [Hpos|[[Hpos (m & Hm)]|[Hpos _]]]; try discriminate;
        injection Hpos as -> ->.
      * right; left. split; [reflexivity|]. now exists s.
      * right; right. split; [reflexivity|]. now exists m, s.
  - intros pos ns' o v Hin Hst [(u & b & op & Hu & Hb & Ho & Hi & Hc) Hpos].
    option_cases Hin Hst.
    + destruct Hst as (s & Hs). apply get_value_int in Hs.
      split; [exists v, b, op; auto 6|exact Hpos].
    + destruct Hst as (s & Hs). apply get_value_choice in Hs as [-> Hc'].
      split; [exists u, s, op; auto 6|exact Hpos].
    + subst v. split; [exists u, b, true; auto 6|exact Hpos].
  - split; [|now left].
    exists VNone, "webgpu", false. unfold backend_choice. auto 6.
Qed.

(** ** Computations that add no event of a given kind to the trace *)

Section Silent.
Variable sel : Event -> bool.
Variable w : World.

Lemma silent_ret {A} (a : A) : silent sel w (ret a).
Proof. intros tr. reflexivity. Qed.

Lemma silent_raise {A} (f : Failure) : silent sel w (@raise A f).
Proof. intros tr. reflexivity. Qed.

Lemma silent_bind {A B} (m : M A) (k : A -> M B) :
  silent sel w m -> (forall a, silent sel w (k a)) -> silent sel w (bind m k).
Proof.
  intros Hm Hk tr. unfold bind. specialize (Hm tr).
  destruct (m w tr) as [[f|a] tr']; simpl in *; [assumption|].
  now rewrite Hk.
Qed.

Lemma silent_call (callee : string) (args : list Val) :
  sel (callee, args) = false -> silent sel w (call callee args).
Proof.
  intros Hs tr. unfold call.
  destruct (raises w callee args); simpl;
    rewrite filter_app; simpl; rewrite Hs; apply app_nil_r.
Qed.

Lemma silent_local line name v : silent sel w (local line name v).
Proof. destruct v; [apply silent_ret|apply silent_raise]. Qed.

Lemma silent_attr args name : silent sel w (attr args name).
Proof. unfold attr. destruct (getattr args name); [apply silent_ret|apply silent_raise]. Qed.

Lemma silent_flags_DEBUG : silent sel w flags_DEBUG.
Proof. intros tr. reflexivity. Qed.

Lemma silent_OUTPUT_DIR : silent sel w OUTPUT_DIR.
Proof. intros tr. reflexivity. Qed.

Lemma silent_finally {A} (body : M A) (cleanup : M unit) :
  silent sel w body -> silent sel w cleanup -> silent sel w (finally body cleanup).
Proof.
  intros Hb Hc tr. unfold finally. specialize (Hb tr).
  destruct (body w tr) as [r tr']. specialize (Hc tr').
  destruct (cleanup w tr') as [[f|u] tr'']; simpl in *; congruence.
Qed.

Lemma silent_unpack2 v :
  sel ("unpack", [v; VInt 2]) = false -> silent sel w (unpack2 v).
Proof.
  intros Hs. unfold unpack2. apply silent_bind; [now apply silent_call|].
  intros a. apply silent_ret.
Qed.

Lemma silent_with_open path body :
  (forall a, sel ("open", a) = false) ->
  (forall a, sel ("file.close", a) = false) ->
  (forall f, silent sel w (body f)) ->
  silent sel w (with_open path body).
Proof.
  intros Ho Hc Hb. unfold with_open.
  apply silent_bind; [apply silent_call, Ho|]. intros f.
  apply silent_finally; [apply Hb|].
  apply silent_bind; [apply silent_call, Hc|]. intros a. apply silent_ret.
Qed.
End Silent.

Ltac silence_after first_try :=
  repeat first
    [ first_try
    | apply silent_ret | apply silent_raise | apply silent_local
    | apply silent_attr | apply silent_flags_DEBUG | apply silent_OUTPUT_DIR
    | apply silent_call; reflexivity
    | apply silent_unpack2; reflexivity
    | apply silent_with_open; [intros; reflexivity|intros; reflexivity|intros]
    | apply silent_bind; [|intros]
    | match goal with
      | |- silent _ _ (match ?x with _ => _ end) => destruct x
      end ].

Ltac silence := silence_after fail.

Lemma save_resnet_no_stage w args image nn_output descriptor data :
  silent is_stage w (save_resnet args image nn_output descriptor data).
Proof. unfold save_resnet, write_artifacts. silence. Qed.

Lemma save_main_no_stage w args dummy_output descriptor data :
  silent is_stage w (save_main args dummy_output descriptor data).
Proof. unfold save_main, write_artifacts. silence. Qed.

(** ** Running a program one call at a time *)

#[local] Arguments bind : simpl never.
#[local] Arguments call : simpl never.
#[local] Arguments save_resnet : simpl never.
#[local] Arguments save_main : simpl never.

Lemma bind_ret {A B} (a : A) (k : A -> M B) w tr : bind (ret a) k w tr = k a w tr.
Proof. reflexivity. Qed.

Lemma bind_raise {A B} (f : Failure) (k : A -> M B) w tr :
  bind (raise f) k w tr = (inl f, tr).
Proof. reflexivity. Qed.

Lemma bind_flags_DEBUG {B} (k : bool -> M B) w tr :
  bind flags_DEBUG k w tr = k (DEBUG w) w tr.
Proof. reflexivity. Qed.

Lemma bind_assoc {A B C} (m : M A) (k1 : A -> M B) (k2 : B -> M C) w tr :
  bind (bind m k1) k2 w tr = bind m (fun x => bind (k1 x) k2) w tr.
Proof. unfold bind. now destruct (m w tr) as [[f|a] tr']. Qed.

Lemma stage_events_app tr e :
  stage_events (tr ++ [e]) = stage_events tr ++ stage_events [e].
Proof. apply filter_app. Qed.

(** ** The order of the stages *)

Lemma in_order_tail optimize backend (m : M unit) w tr stages :
  silent is_stage w m ->
  stage_events tr = stages ->
  Pipeline optimize backend stages true ->
  in_order optimize backend (m w tr).
Proof.
  intros Hm <- Hp. exists true. split; [|reflexivity].
  unfold stage_events in *. now rewrite Hm.
Qed.

Lemma in_order_failed optimize backend f tr stages generated :
  stage_events tr = stages ->
  Pipeline optimize backend stages generated ->
  in_order optimize backend (inl f, tr).
Proof. intros <- Hp. exists generated. split; [exact Hp|discriminate]. Qed.

(** One library call: the stages seen so far grow by the call if it enters
    a stage; the run may stop there, or go on with the call's result. *)
Lemma in_order_call optimize backend callee a (k : Val -> M unit) w tr
      stages generated :
  stage_events tr = stages ->
  Pipeline optimize backend (stages ++ stage_events [(callee, a)]) generated ->
  (forall tr', stage_events tr' = stages ++ stage_events [(callee, a)] ->
               in_order optimize backend (k (VCall callee a) w tr')) ->
  in_order optimize backend (bind (call callee a) k w tr).
Proof.
  intros Hs Hp Hk. unfold bind, call.
  destruct (raises w callee a).
  - eapply in_order_failed; [|exact Hp]. now rewrite stage_events_app, Hs.
  - apply Hk. now rewrite stage_events_app, Hs.
Qed.

Ltac convert_call := split; [reflexivity|vm_compute; reflexivity].
Ltac generate_call :=
  first [left; split; reflexivity|right; split; reflexivity].

(** [Pipeline] of a concrete list of stage calls. *)
Ltac stages_so_far :=
  first
    [ assumption
    | apply Pipeline_not_started
    | apply Pipeline_converted; convert_call
    | apply Pipeline_optimized; [reflexivity|convert_call|reflexivity]
    | apply Pipeline_generated; [reflexivity|convert_call|generate_call]
    | apply Pipeline_optimized_generated;
        [reflexivity|convert_call|reflexivity|generate_call] ].

Ltac tidy := cbn -[in_order stage_events].

Ltac step :=
  lazymatch goal with
  | Hs : stage_events ?tr = _ |- in_order _ _ (bind (call _ _) _ _ ?tr) =>
      let tr' := fresh "tr" in
      let Hs' := fresh "Hs" in
      eapply (in_order_call _ _ _ _ _ _ _ _ _ Hs);
        [ cbn; stages_so_far
        | clear Hs; intros tr' Hs'; cbn in Hs'; tidy ]
  | |- in_order _ _ (bind (ret _) _ _ _) => rewrite bind_ret; tidy
  | |- in_order _ _ (bind flags_DEBUG _ _ _) => rewrite bind_flags_DEBUG; tidy
  | |- in_order _ _ (bind (bind _ _) _ _ _) => rewrite bind_assoc; tidy
  | Hs : stage_events ?tr = _ |- in_order _ _ (bind (raise _) _ _ ?tr) =>
      rewrite bind_raise; eapply in_order_failed; [exact Hs|stages_so_far]
  | |- in_order _ _ (bind (MLP_call _ _) _ _ _) => unfold MLP_call, field; tidy
  | |- in_order _ _ (bind (CNN_call _ _) _ _ _) => unfold CNN_call, field; tidy
  | |- in_order _ _ (bind (CNN2_call _ _) _ _ _) => unfold CNN2_call, field; tidy
  | |- in_order _ _ (bind (CNN3_call _ _) _ _ _) => unfold CNN3_call, field; tidy
  | Hs : stage_events ?tr = _ |- in_order _ _ (save_resnet _ _ _ _ _ _ ?tr) =>
      eapply in_order_tail;
        [apply save_resnet_no_stage|exact Hs|stages_so_far]
  | Hs : stage_events ?tr = _ |- in_order _ _ (save_main _ _ _ _ _ ?tr) =>
      eapply in_order_tail;
        [apply save_main_no_stage|exact Hs|stages_so_far]
  end.

Lemma main_resnet_in_order argv args model backend optimize w :
  parse_args main_resnet_parser argv = inr args ->
  resnet_args args model backend optimize ->
  in_order optimize backend (run (main_resnet argv) w).
Proof.
  intros Hparse [Hm Hb Ho Hmc Hbc].
  unfold run.
  assert (Hs : stage_events [] = []) by reflexivity.
  revert Hs. generalize (@nil Event) at 1 3. intros tr Hs.
  unfold main_resnet, parse, convert, optimize_if_requested, generate,
    unpack2, attr.
  rewrite Hparse, bind_ret, Hm, Hb, Ho.
  destruct Hmc as [-> | ->]; tidy; repeat step;
    destruct (DEBUG w); tidy; repeat step;
    destruct optimize; tidy; repeat step;
    destruct Hbc as [-> | ->]; tidy; repeat step.
Qed.

Lemma main_in_order argv args model model_path unit backend optimize w :
  parse_args main_parser argv = inr args ->
  main_args args model model_path unit backend optimize ->
  in_order optimize backend (run (main argv) w).
Proof.
  intros Hparse [Hm Hp Hu Hb Ho Hui Hbc].
  unfold run.
  assert (Hs : stage_events [] = []) by reflexivity.
  revert Hs. generalize (@nil Event) at 1 3. intros tr Hs.
  unfold main, parse, convert, optimize_if_requested, generate, unpack2, attr,
    MLP, CNN2, CNN3, Driver.Linear, Driver.Convolution2D.
  rewrite Hparse, bind_ret, Hm, Hp, Hu, Hb, Ho.
  destruct Hui as [-> | [z ->]]; tidy; repeat step;
    repeat (lazymatch goal with
            | |- in_order _ _ (bind (if (?x =? ?y) then _ else _) _ _ _) =>
                destruct (x =? y)
            end; tidy; repeat step);
    destruct optimize; tidy; repeat step;
    destruct Hbc as [-> | ->]; tidy; repeat step.
Qed.

(** C7.  In both entry points the stages run in the order converter, then
    the optimizer exactly when [--optimize] was given, then the generator of
    the chosen backend, each at most once.  The converter is handed nothing
    that comes out of a stage, the optimizer is handed the converter's graph,
    the generator the graph of the stage just before it; a run that ends
    normally has gone through the generator. *)
Theorem stages_run_in_order
    (e : EntryPoint) (argv : list string) (args : Namespace) (w : World) :
  parse_args (parser_of e) argv = inr args ->
  exists backend optimize generated,
    getattr args "backend" = Some (VStr backend) /\
    getattr args "optimize" = Some (VBool optimize) /\
    Pipeline optimize backend (stage_events (trace (enter e argv) w)) generated /\
    (outcome (enter e argv) w = inr tt -> generated = true).
Proof.
  intros Hparse. destruct e; simpl in Hparse.
  - destruct (main_resnet_parser_args _ _ Hparse) as (m & b & o & Hargs).
    destruct (main_resnet_in_order _ _ _ _ _ w Hparse Hargs) as (g & Hp & Hg).
    exists b, o, g. destruct Hargs. auto.
  - destruct (main_parser_args _ _ Hparse) as (m & mp & u & b & o & Hargs).
    destruct (main_in_order _ _ _ _ _ _ _ w Hparse Hargs) as (g & Hp & Hg).
    exists b, o, g. destruct Hargs. auto.
Qed.

Lemma stages_run_in_order_witness :
  let args := Samples.namespace_of main_resnet_parser Samples.resnet_argv in
  exists backend optimize generated,
    getattr args "backend" = Some (VStr backend) /\
    getattr args "optimize" = Some (VBool optimize) /\
    Pipeline optimize backend
      (stage_events
         (trace (enter MainResnet Samples.resnet_argv) Samples.quiet_world))
      generated /\
    (outcome (enter MainResnet Samples.resnet_argv) Samples.quiet_world = inr tt ->
     generated = true).
Proof.
  apply (stages_run_in_order MainResnet Samples.resnet_argv
           (Samples.namespace_of main_resnet_parser Samples.resnet_argv)
           Samples.quiet_world).
  vm_compute. reflexivity.
Defined.

(** ** The backend dispatch *)

Lemma safe_ret {A} (a : A) : safe (ret a).
Proof. intros w tr line. discriminate. Qed.

Lemma safe_raise {A} (f : Failure) :
  (forall line, f <> NotImplementedError line) -> safe (@raise A f).
Proof. intros Hf w tr line. simpl. intros [= H]. now apply (Hf line). Qed.

Lemma safe_bind_returned {A B} (m : M A) (k : A -> M B) :
  safe m ->
  (forall a, (exists w tr tr', m w tr = (inr a, tr')) -> safe (k a)) ->
  safe (bind m k).
Proof.
  intros Hm Hk w tr line. unfold bind. specialize (Hm w tr line).
  destruct (m w tr) as [[f|a] tr'] eqn:E.
  - simpl in *. intros [= ->]. now apply Hm.
  - apply Hk. eauto.
Qed.

Lemma safe_bind {A B} (m : M A) (k : A -> M B) :
  safe m -> (forall a, safe (k a)) -> safe (bind m k).
Proof. intros Hm Hk. apply safe_bind_returned; auto. Qed.

Lemma safe_bind_ret {A B} (a : A) (k : A -> M B) :
  safe (k a) -> safe (bind (ret a) k).
Proof. intros Hk w tr line. apply Hk. Qed.

Lemma safe_call callee args : safe (call callee args).
Proof. intros w tr line. unfold call. destruct (raises _ _ _); discriminate. Qed.

Lemma safe_local line name v : safe (local line name v).
Proof. destruct v; [apply safe_ret|apply safe_raise; discriminate]. Qed.

Lemma safe_attr args name : safe (attr args name).
Proof.
  unfold attr. destruct (getattr args name);
    [apply safe_ret|apply safe_raise; discriminate].
Qed.

Lemma safe_flags_DEBUG : safe flags_DEBUG.
Proof. intros w tr line. discriminate. Qed.

Lemma safe_OUTPUT_DIR : safe OUTPUT_DIR.
Proof. intros w tr line. discriminate. Qed.

Lemma safe_finally {A} (body : M A) (cleanup : M unit) :
  safe body -> safe cleanup -> safe (finally body cleanup).
Proof.
  intros Hb Hc w tr line. unfold finally.
  specialize (Hb w tr line). destruct (body w tr) as [r tr'].
  specialize (Hc w tr' line).
  destruct (cleanup w tr') as [[f|u] tr'']; simpl in *;
    [intros [= ->]; now apply Hc|exact Hb].
Qed.

Lemma safe_parse p argv : safe (parse p argv).
Proof.
  unfold parse. destruct (parse_args p argv);
    [apply safe_raise; discriminate|apply safe_ret].
Qed.

Ltac safely :=
  repeat first
    [ apply safe_ret | apply safe_call | apply safe_local | apply safe_attr
    | apply safe_flags_DEBUG | apply safe_OUTPUT_DIR | apply safe_parse
    | apply safe_raise; discriminate
    | apply safe_finally
    | apply safe_bind; [|intros]
    | match goal with
      | |- safe (match ?x with _ => _ end) => destruct x
      end ].

(** With a backend among the parser's choices, one of the two first branches
    of the dispatch is taken. *)
Lemma safe_generate line args graph backend :
  getattr args "backend" = Some (VStr backend) ->
  backend_choice backend ->
  safe (generate line args graph).
Proof.
  intros Hb Hc. unfold generate, attr, unpack2. rewrite Hb.
  destruct Hc as [-> | ->]; repeat (apply safe_bind_ret; cbn); safely.
Qed.

Lemma safe_save_resnet args image nn_output descriptor data :
  safe (save_resnet args image nn_output descriptor data).
Proof. unfold save_resnet, write_artifacts, with_open. safely. Qed.

Lemma safe_save_main args dummy_output descriptor data :
  safe (save_main args dummy_output descriptor data).
Proof. unfold save_main, write_artifacts, with_open. safely. Qed.

Lemma parse_returned p argv args :
  (exists w tr tr', parse p argv w tr = (inr args, tr')) ->
  parse_args p argv = inr args.
Proof.
  intros (w & tr & tr' & H). unfold parse in H.
  destruct (parse_args p argv); [discriminate|]. now inversion H.
Qed.

Lemma safe_main_resnet argv : safe (main_resnet argv).
Proof.
  unfold main_resnet. apply safe_bind_returned; [apply safe_parse|].
  intros args Hret. apply parse_returned in Hret.
  destruct (main_resnet_parser_args _ _ Hret) as (m & b & o & [Hm Hb Ho Hmc Hbc]).
  pose proof (fun line graph => safe_generate line args graph b Hb Hbc) as Hgen.
  pose proof (safe_save_resnet args) as Hsave.
  unfold convert, optimize_if_requested, unpack2.
  repeat first
    [ apply Hgen | apply Hsave
    | apply safe_ret | apply safe_call | apply safe_local | apply safe_attr
    | apply safe_flags_DEBUG
    | apply safe_bind; [|intros]
    | match goal with
      | |- safe (match ?x with _ => _ end) => destruct x
      end ].
Qed.

Lemma safe_main argv : safe (main argv).
Proof.
  unfold main. apply safe_bind_returned; [apply safe_parse|].
  intros args Hret. apply parse_returned in Hret.
  destruct (main_parser_args _ _ Hret)
    as (m & mp & u & b & o & [Hm Hp Hu Hb Ho Hui Hbc]).
  pose proof (fun line graph => safe_generate line args graph b Hb Hbc) as Hgen.
  pose proof (safe_save_main args) as Hsave.
  unfold convert, optimize_if_requested, unpack2, apply_link,
    MLP, CNN2, CNN3, MLP_call, CNN_call, CNN2_call, CNN3_call,
    Driver.Linear, Driver.Convolution2D.
  repeat first
    [ apply Hgen | apply Hsave
    | apply safe_ret | apply safe_call | apply safe_local | apply safe_attr
    | apply safe_bind; [|intros]
    | match goal with
      | |- safe (match ?x with _ => _ end) => destruct x
      end ].
Qed.

(** C9.  Whatever argument vector a parser of the file accepts, the backend
    it hands over is [webgpu] or [fallback]; the dispatch then takes one of
    its first two branches, and no run of the entry point ends in the
    [NotImplementedError] of the last branch. *)
Theorem NotImplementedError_unreachable
    (e : EntryPoint) (argv : list string) (args : Namespace) :
  parse_args (parser_of e) argv = inr args ->
  (getattr args "backend" = Some (VStr "webgpu") \/
   getattr args "backend" = Some (VStr "fallback")) /\
  (forall line graph w tr l,
     fst (generate line args graph w tr) <> inl (NotImplementedError l)) /\
  (forall w l, outcome (enter e argv) w <> inl (NotImplementedError l)).
Proof.
  intros Hparse.
  assert (Hb : exists b, getattr args "backend" = Some (VStr b) /\
                         backend_choice b).
  { destruct e; simpl in Hparse.
    - destruct (main_resnet_parser_args _ _ Hparse) as (m & b & o & []); eauto.
    - destruct (main_parser_args _ _ Hparse) as (m & mp & u & b & o & []); eauto. }
  destruct Hb as (b & Hb & Hc). split; [|split].
  - destruct Hc as [-> | ->]; auto.
  - intros line graph w tr l. now apply (safe_generate line args graph b).
  - intros w l. unfold outcome, run.
    destruct e; [apply safe_main_resnet|apply safe_main].
Qed.

Lemma NotImplementedError_unreachable_witness :
  let args := Samples.namespace_of main_parser Samples.mnist_argv in
  (getattr args "backend" = Some (VStr "webgpu") \/
   getattr args "backend" = Some (VStr "fallback")) /\
  (forall line graph w tr l,
     fst (generate line args graph w tr) <> inl (NotImplementedError l)) /\
  (forall w l, outcome (enter Main Samples.mnist_argv) w <> inl (NotImplementedError l)).
Proof.
  apply (NotImplementedError_unreachable Main Samples.mnist_argv
           (Samples.namespace_of main_parser Samples.mnist_argv)).
  vm_compute. reflexivity.
Defined.

(** ** A model name outside the dispatch of [main] *)

Lemma bind_call {B} callee a (k : Val -> M B) w tr :
  bind (call callee a) k w tr =
  match raises w callee a with
  | Some what => (inl (LibraryError callee what), tr ++ [(callee, a)])
  | None => k (VCall callee a) w (tr ++ [(callee, a)])
  end.
Proof. unfold bind, call. now destruct (raises w callee a). Qed.

Lemma not_in_eqb model (names : list string) :
  ~ In model names -> Forall (fun n => (model =? n) = false) names.
Proof.
  intros H. apply Forall_forall. intros n Hn.
  apply String.eqb_neq. intros ->. contradiction.
Qed.

(** C10.  When [main] is given a model name other than [MLP], [CNN2] and
    [CNN3], it never gets further than fetching the MNIST test sample: it
    attempts no call besides [dataset_calls] (no model is built or loaded and
    no graph is converted) and it ends in a failure.  When those calls
    return, the failure is the [UnboundLocalError], a [NameError], raised by
    the read of [link] at line 161. *)
Theorem unknown_model_is_unbound_local
    (argv : list string) (args : Namespace) (model : string) (w : World) :
  parse_args main_parser argv = inr args ->
  getattr args "model" = Some (VStr model) ->
  ~ In model ["MLP"; "CNN2"; "CNN3"] ->
  (exists rest, trace (main argv) w ++ rest = dataset_calls) /\
  (exists f, outcome (main argv) w = inl f) /\
  ((forall e, In e dataset_calls -> raises w (fst e) (snd e) = None) ->
   outcome (main argv) w = inl (UnboundLocalError 161 "link") /\
   is_NameError (UnboundLocalError 161 "link") = true /\
   trace (main argv) w = dataset_calls).
Proof.
  intros Hparse Hmodel Hout.
  destruct (main_parser_args _ _ Hparse)
    as (m & mp & u & b & o & [Hm Hp Hu Hb Ho Hui Hbc]).
  rewrite Hmodel in Hm. injection Hm as <-.
  apply not_in_eqb in Hout.
  inversion Hout as [|? ? E1 Hout1]; subst.
  inversion Hout1 as [|? ? E2 Hout2]; subst.
  inversion Hout2 as [|? ? E3 _]; subst.
  unfold trace, outcome, run, main, parse, unpack2, attr.
  rewrite Hparse, bind_ret, Hmodel, Hp.
  rewrite bind_call.
  destruct (raises w _ _) eqn:R1.
  { simpl. split; [eexists; reflexivity|]. split; [eauto|].
    intros H. specialize (H _ (or_introl eq_refl)). cbv [fst snd result_of] in H. congruence. }
  rewrite bind_assoc, bind_call.
  destruct (raises w "unpack" _) eqn:R2.
  { simpl. split; [eexists; reflexivity|]. split; [eauto|].
    intros H. specialize (H _ (or_intror (or_introl eq_refl))).
    cbv [fst snd result_of] in H. congruence. }
  rewrite bind_ret, bind_call.
  destruct (raises w "__getitem__" _) eqn:R3.
  { simpl. split; [eexists; reflexivity|]. split; [eauto|].
    intros H. specialize (H _ (or_intror (or_intror (or_introl eq_refl)))).
    cbv [fst snd result_of] in H. congruence. }
  repeat (first [ rewrite bind_ret | rewrite bind_assoc | rewrite bind_raise
                | rewrite E1 | rewrite E2 | rewrite E3 ];
          cbn [eq_str local]).
  simpl. split; [exists []; reflexivity|]. split; [eauto|]. auto.
Qed.

Lemma unknown_model_is_unbound_local_witness :
  (exists rest,
     trace (main Samples.cnn_argv) Samples.quiet_world ++ rest = dataset_calls) /\
  (exists f, outcome (main Samples.cnn_argv) Samples.quiet_world = inl f) /\
  ((forall e, In e dataset_calls ->
              raises Samples.quiet_world (fst e) (snd e) = None) ->
   outcome (main Samples.cnn_argv) Samples.quiet_world
     = inl (UnboundLocalError 161 "link") /\
   is_NameError (UnboundLocalError 161 "link") = true /\
   trace (main Samples.cnn_argv) Samples.quiet_world = dataset_calls).
Proof.
  apply (unknown_model_is_unbound_local Samples.cnn_argv
           (Samples.namespace_of main_parser Samples.cnn_argv)
           "CNN" Samples.quiet_world).
  - vm_compute. reflexivity.
  - vm_compute. reflexivity.
  - simpl. intros [H|[H|[H|[]]]]; discriminate H.
Defined.

(** ** The graph dump and [flags.DEBUG] *)

Lemma silent_bind_flags_DEBUG {B} sel w (k : bool -> M B) :
  silent sel w (k (DEBUG w)) -> silent sel w (bind flags_DEBUG k).
Proof. intros Hk tr. apply Hk. Qed.

(** [main_resnet] dumps the graph only under [flags.DEBUG]. *)
Lemma main_resnet_quiet_without_DEBUG (argv : list string) (w : World) :
  DEBUG w = false -> dump_events (trace (main_resnet argv) w) = [].
Proof.
  intros Hd. unfold trace, run, dump_events.
  assert (H : silent is_dump w (main_resnet argv)); [|now rewrite H].
  unfold main_resnet, parse, convert, optimize_if_requested, generate,
    save_resnet, write_artifacts.
  silence_after ltac:(apply silent_bind_flags_DEBUG; rewrite Hd).
Qed.

(** C8, at an input where the code and the claim part: with [flags.DEBUG]
    off and every library call returning, [main] still dumps the graph, once
    after the conversion and once after the optimization step. *)
Theorem main_dumps_with_DEBUG_off :
  let w := mkWorld false "example/convert_resnet" (fun _ _ => None) in
  let argv := ["MLP"; "mlp.npz"] in
  DEBUG w = false /\
  outcome (main argv) w = inr tt /\
  map fst (dump_events (trace (main argv) w)) = [DUMP; DUMP].
Proof. vm_compute. auto. Qed.

End DriverFacts.


(** * Facts about lists *)

Module ListFacts.

Section FirstOccurrences.
Context {A : Type} (eqb : A -> A -> bool).
Hypothesis eqb_eq : forall x y, eqb x y = true <-> x = y.

Lemma eqb_refl_true (x : A) : eqb x x = true.
Proof. now apply eqb_eq. Qed.

Lemma eqb_false_neq (x y : A) : eqb x y = false <-> x <> y.
Proof.
  split.
  - intros H E. apply eqb_eq in E. congruence.
  - intros H. destruct (eqb x y) eqn:E; [|reflexivity].
    apply eqb_eq in E. contradiction.
Qed.

Lemma in_first_occurrences (l : list A) (x : A) :
  In x (Generator.first_occurrences eqb l) <-> In x l.
Proof.
  induction l as [|y rest IH]; simpl; [tauto|].
  rewrite filter_In, IH, negb_true_iff, eqb_false_neq.
  split.
  - tauto.
  - intros [->|H]; [now left|].
    destruct (eqb y x) eqn:E.
    + apply eqb_eq in E. now left.
    + apply eqb_false_neq in E. right. tauto.
Qed.

Lemma NoDup_first_occurrences (l : list A) :
  NoDup (Generator.first_occurrences eqb l).
Proof.
  induction l as [|y rest IH]; simpl; constructor.
  - rewrite filter_In, negb_true_iff, eqb_false_neq. tauto.
  - now apply NoDup_filter.
Qed.

(** Filtering keeps the relative order of what it keeps. *)
Lemma filter_order (f : A -> bool) (l pre mid post : list A) (a b : A) :
  filter f l = pre ++ a :: mid ++ b :: post ->
  exists pre' mid' post', l = pre' ++ a :: mid' ++ b :: post'.
Proof.
  revert pre. induction l as [|x rest IH]; simpl; intros pre H.
  - now destruct pre.
  - destruct (f x).
    + destruct pre as [|p pre]; simpl in H; injection H as <- H.
      * assert (Hb : In b (filter f rest)).
        { rewrite H. apply in_or_app. right. now left. }
        apply filter_In in Hb as [Hb _].
        apply in_split in Hb as (m1 & m2 & ->).
        now exists [], m1, m2.
      * destruct (IH _ H) as (pre' & mid' & post' & ->).
        now exists (x :: pre'), mid', post'.
    + destruct (IH _ H) as (pre' & mid' & post' & ->).
      now exists (x :: pre'), mid', post'.
Qed.

(** If [a] stands before [b] among the first occurrences, then [a] occurs
    in [l] before any occurrence of [b]. *)
Lemma first_occurrences_order (l pre mid post : list A) (a b : A) :
  Generator.first_occurrences eqb l = pre ++ a :: mid ++ b :: post ->
  exists before after,
    l = before ++ a :: after /\ ~ In a before /\ ~ In b before.
Proof.
  revert pre mid post. induction l as [|x rest IH]; simpl; intros pre mid post H.
  - now destruct pre.
  - destruct pre as [|p pre]; simpl in H; injection H as <- H.
    + exists [], rest. simpl. tauto.
    + assert (Ha : In a (filter (fun y => negb (eqb x y))
                                (Generator.first_occurrences eqb rest))).
      { rewrite H. apply in_or_app. right. now left. }
      assert (Hb : In b (filter (fun y => negb (eqb x y))
                                (Generator.first_occurrences eqb rest))).
      { rewrite H. apply in_or_app. right. right.
        apply in_or_app. right. now left. }
      apply filter_In in Ha as [_ Ha]. apply filter_In in Hb as [_ Hb].
      rewrite negb_true_iff, eqb_false_neq in Ha, Hb.
      apply filter_order in H as (pre' & mid' & post' & H).
      destruct (IH _ _ _ H) as (before & after & -> & Hna & Hnb).
      exists (x :: before), after. simpl. intuition congruence.
Qed.

Lemma index_of_In (l : list A) (x : A) :
  In x l -> exists i, Generator.index_of eqb x l = Some i /\ nth_error l i = Some x.
Proof.
  induction l as [|y rest IH]; simpl; [tauto|]. intros H.
  destruct (eqb x y) eqn:E.
  - apply eqb_eq in E as ->. now exists 0.
  - destruct H as [->|H]; [now rewrite eqb_refl_true in E|].
    destruct (IH H) as (i & -> & Hn). now exists (S i).
Qed.

End FirstOccurrences.

Lemma NoDup_count_occ_1 (l : list string) (x : string) :
  NoDup l -> In x l -> count_occ string_dec l x = 1.
Proof.
  intros Hn Hi. pose proof (proj1 (NoDup_count_occ string_dec l) Hn x).
  apply (count_occ_In string_dec) in Hi. lia.
Qed.

End ListFacts.

(** * Facts about the converter *)

Module ConverterFacts.
Import Converter.

Lemma convert_nodes_ok table nodes ops :
  convert_nodes table nodes = inr ops -> Forall2 (converted table) nodes ops.
Proof.
  revert ops. induction nodes as [|n rest IH]; simpl; intros ops.
  - intros [= <-]. constructor.
  - unfold convert_node.
    destruct (lookup_kind table (node_tag n)) as [mk|] eqn:E; [|discriminate].
    destruct (convert_nodes table rest) as [|ops']; [discriminate|].
    intros [= <-]. constructor; [now exists mk|auto].
Qed.

Lemma convert_nodes_unsupported table nodes :
  (exists n, In n nodes /\ lookup_kind table (node_tag n) = None) ->
  exists before n after,
    nodes = before ++ n :: after /\
    Forall (fun m => lookup_kind table (node_tag m) <> None) before /\
    lookup_kind table (node_tag n) = None /\
    convert_nodes table nodes = inl (UnsupportedOperator (node_tag n)).
Proof.
  induction nodes as [|m rest IH]; intros (n & Hin & Hn); [contradiction|].
  simpl. unfold convert_node.
  destruct (lookup_kind table (node_tag m)) as [mk|] eqn:E.
  - destruct Hin as [->|Hin]; [congruence|].
    destruct IH as (before & n' & after & -> & Hb & Hn' & ->); [eauto|].
    exists (m :: before), n', after. repeat split; auto.
    constructor; [congruence|assumption].
  - exists [], m, rest. repeat split; auto.
Qed.

(** C6.  A trace with a node whose kind is outside the supported set makes
    the converter fail with [UnsupportedOperator] carrying the kind of the
    first such node, so that no Graph comes back; and a Graph that does come
    back has one operator per node of the trace, in the trace's order, with
    the node's inputs and outputs: no node is dropped. *)
Theorem unsupported_kind_fails (table : KindTable) (t : GraphTrace) :
  ((exists n, In n (trace_nodes t) /\ lookup_kind table (node_tag n) = None) ->
   exists before n after,
     trace_nodes t = before ++ n :: after /\
     Forall (fun m => lookup_kind table (node_tag m) <> None) before /\
     lookup_kind table (node_tag n) = None /\
     convert table t = inl (UnsupportedOperator (node_tag n))) /\
  (forall g, convert table t = inr g ->
             Forall2 (converted table) (trace_nodes t) (g_operators g) /\
             List.length (g_operators g) = List.length (trace_nodes t)).
Proof.
  unfold convert. split.
  - intros H.
    destruct (convert_nodes_unsupported table _ H)
      as (before & n & after & Hsplit & Hb & Hn & ->).
    exists before, n, after. auto.
  - intros g.
    destruct (convert_nodes table (trace_nodes t)) as [|ops] eqn:E; [discriminate|].
    intros [= <-]. simpl. apply convert_nodes_ok in E.
    split; [assumption|]. symmetry. eapply Forall2_length, E.
Qed.

(** Scenarios 1 and 3 of the spec, on the sample traces. *)
Example conv_relu_linear_converts :
  option_map (fun g => map op_kind (g_operators g))
             (match convert Samples.sample_table Samples.conv_relu_linear with
              | inr g => Some g
              | inl _ => None
              end)
  = Some [Convolution2D 5 1 0; ReLU; Linear].
Proof. reflexivity. Qed.

Example custom_layer_is_unsupported :
  convert Samples.sample_table Samples.with_custom_layer
  = inl (UnsupportedOperator "MyLayer").
Proof. reflexivity. Qed.

End ConverterFacts.

(** * Facts about the generators *)

Module GeneratorFacts.
Import Generator ListFacts.

(** ** The traversal visits every operator once *)

Lemma pick_ready_permutation remaining before rest o others :
  pick_ready remaining before rest = Some (o, others) ->
  Permutation (rev before ++ rest) (o :: others).
Proof.
  revert before. induction rest as [|x rest IH]; cbn [pick_ready]; intros before H.
  - discriminate.
  - destruct (ready remaining x).
    + inversion H; subst. symmetry. apply Permutation_middle.
    + apply IH in H. simpl in H. now rewrite <- app_assoc in H.
Qed.

Lemma traverse_permutation fuel remaining order :
  traverse fuel remaining = inr order -> Permutation remaining order.
Proof.
  revert remaining order.
  induction fuel as [|fuel IH]; intros [|x rest] order; cbn [traverse];
    try discriminate; try (intros [= <-]; constructor).
  destruct (pick_ready (x :: rest) [] (x :: rest)) as [[o others]|] eqn:Hp;
    [|discriminate].
  destruct (traverse fuel others) as [|order'] eqn:Ht; [discriminate|].
  intros [= <-]. apply pick_ready_permutation in Hp. simpl in Hp.
  rewrite Hp. constructor. now apply IH.
Qed.

(** ** What lowering records *)

Lemma lower_lowered L b g o inv : lower L b g o = inr inv -> lowered L b g o inv.
Proof.
  unfold lower, lowered, signature.
  destruct (shapes_of g (op_inputs o)) as [ins|]; [|discriminate].
  destruct (shapes_of g (op_outputs o)) as [outs|]; [|discriminate].
  destruct (shapes_agree L (op_kind o) ins outs); [|discriminate].
  destruct b.
  - destruct (synthesize_kernel L _) eqn:E; [|discriminate].
    intros [= <-]. simpl. auto.
  - destruct (reference_implementation L _) eqn:E; [|discriminate].
    intros [= <-]. simpl. auto.
Qed.

Lemma lower_all_lowered L b g order invs :
  lower_all L b g order = inr invs -> Forall2 (lowered L b g) order invs.
Proof.
  revert invs. induction order as [|o rest IH]; simpl; intros invs.
  - intros [= <-]. constructor.
  - destruct (lower L b g o) as [|inv] eqn:E; [discriminate|].
    destruct (lower_all L b g rest) as [|invs']; [discriminate|].
    intros [= <-]. constructor; auto using lower_lowered.
Qed.

(** The parts of a successful generation. *)
Lemma generate_inversion L b g d buffer :
  generate L b g = inr (d, buffer) ->
  exists order,
    topological_order g = inr order /\
    Permutation (g_operators g) order /\
    Forall2 (lowered L b g) order (d_invocations d) /\
    d_backend d = b /\
    pack 0 (constants_in_order g order) = (d_weights d, buffer).
Proof.
  unfold generate.
  destruct (topological_order g) as [|order] eqn:Ht; [discriminate|].
  destruct (lower_all L b g order) as [|invs] eqn:Hl; [discriminate|].
  destruct (pack 0 (constants_in_order g order)) as [entries buf] eqn:Hp.
  intros [= <- <-]. exists order. simpl.
  repeat split; auto using lower_all_lowered.
  now apply traverse_permutation in Ht.
Qed.

(** ** The kernel sources of a WebGPU Descriptor *)

Lemma Forall2_In_r {A B} (R : A -> B -> Prop) l1 l2 y :
  Forall2 R l1 l2 -> In y l2 -> exists x, In x l1 /\ R x y.
Proof.
  induction 1 as [|a b l1 l2 Hab _ IH]; simpl; [tauto|].
  intros [<-|H]; [eauto|]. destruct (IH H) as (x & Hx & Hr). eauto.
Qed.

Lemma Forall2_In_l {A B} (R : A -> B -> Prop) l1 l2 x :
  Forall2 R l1 l2 -> In x l1 -> exists y, In y l2 /\ R x y.
Proof.
  induction 1 as [|a b l1 l2 Hab _ IH]; simpl; [tauto|].
  intros [<-|H]; [eauto|]. destruct (IH H) as (y & Hy & Hr). eauto.
Qed.

(** C2.  In the Descriptor that the WebGPU generator returns, the kernel
    sources behind [concat_kernel_sources] hold no source text twice; every
    invocation's source is among them exactly once, and nothing else is; a
    source stands before another when it is referenced first along the
    traversal; and two operators with the same kind, parameters and shapes
    refer to the same entry. *)
Theorem kernel_sources_deduplicated
    (L : Lowering) (g : Graph) (d : Descriptor) (buffer : list byte) :
  generate L WebGPU g = inr (d, buffer) ->
  NoDup (kernel_sources d) /\
  (forall inv, In inv (d_invocations d) ->
     count_occ string_dec (kernel_sources d) (inv_implementation inv) = 1 /\
     exists i, kernel_entry d inv = Some i /\
               nth_error (kernel_sources d) i = Some (inv_implementation inv)) /\
  (forall source, In source (kernel_sources d) ->
     exists inv, In inv (d_invocations d) /\ inv_implementation inv = source) /\
  (forall pre a mid b post,
     kernel_sources d = pre ++ a :: mid ++ b :: post ->
     exists before after,
       map inv_implementation (d_invocations d) = before ++ a :: after /\
       ~ In a before /\ ~ In b before) /\
  (forall inv1 inv2,
     In inv1 (d_invocations d) -> In inv2 (d_invocations d) ->
     In (inv_operator inv1) (g_operators g) /\
     In (inv_operator inv2) (g_operators g) /\
     (signature g (inv_operator inv1) = signature g (inv_operator inv2) ->
      kernel_entry d inv1 = kernel_entry d inv2)).
Proof.
  intros Hgen.
  destruct (generate_inversion _ _ _ _ _ Hgen) as (order & _ & Hperm & Hlow & _ & _).
  unfold kernel_sources, kernel_entry.
  pose proof String.eqb_eq as Heq.
  repeat split.
  - apply NoDup_first_occurrences. exact Heq.
  - apply NoDup_count_occ_1.
    + apply NoDup_first_occurrences. exact Heq.
    + apply in_first_occurrences; [exact Heq|]. now apply in_map.
  - apply index_of_In; [exact Heq|].
    apply in_first_occurrences; [exact Heq|]. now apply in_map.
  - intros source Hs. apply in_first_occurrences in Hs; [|exact Heq].
    apply in_map_iff in Hs as (inv & <- & Hin). eauto.
  - intros pre a mid b post H.
    eapply first_occurrences_order; [exact Heq|exact H].
  - destruct (Forall2_In_r _ _ _ _ Hlow H) as (o & Ho & <- & _).
    now rewrite Hperm.
  - destruct (Forall2_In_r _ _ _ _ Hlow H0) as (o & Ho & <- & _).
    now rewrite Hperm.
  - intros Hsig.
    destruct (Forall2_In_r _ _ _ _ Hlow H) as (o1 & _ & <- & Hs1 & Hk1).
    destruct (Forall2_In_r _ _ _ _ Hlow H0) as (o2 & _ & <- & Hs2 & Hk2).
    rewrite Hs1, Hs2 in Hsig. injection Hsig as Hsig.
    rewrite Hsig in Hk1. rewrite Hk1 in Hk2. injection Hk2 as <-. reflexivity.
Qed.

Lemma kernel_sources_deduplicated_witness :
  exists d buffer,
    generate Samples.sample_lowering WebGPU Samples.two_layers = inr (d, buffer) /\
    kernel_sources d = ["kernel void linear()"; "kernel void relu()"] /\
    NoDup (kernel_sources d).
Proof.
  destruct (generate Samples.sample_lowering WebGPU Samples.two_layers)
    as [e|[d buffer]] eqn:E; [vm_compute in E; discriminate E|].
  exists d, buffer. split; [reflexivity|]. split.
  - vm_compute in E. injection E as <- _. reflexivity.
  - apply (kernel_sources_deduplicated Samples.sample_lowering
             Samples.two_layers d buffer E).
Defined.

(** ** The weight buffer *)

Lemma placed_shift offset bytes buffer c e :
  placed (offset + List.length bytes) buffer c e ->
  placed offset (bytes ++ buffer) c e.
Proof.
  intros (Hv & Hl & Ho & Hb & Hs). unfold placed.
  rewrite length_app. repeat split; try lia; try assumption.
  unfold slice in *. rewrite skipn_app.
  rewrite skipn_all2 by lia. simpl.
  replace (w_offset e - offset - List.length bytes)
    with (w_offset e - (offset + List.length bytes)) by lia.
  exact Hs.
Qed.

Lemma pack_placed cs : forall offset entries buffer,
  pack offset cs = (entries, buffer) ->
  Forall2 (placed offset buffer) cs entries.
Proof.
  induction cs as [|[id bytes] rest IH]; simpl; intros offset entries buffer.
  - intros [= <- <-]. constructor.
  - destruct (pack (offset + List.length bytes) rest) as [es buf] eqn:E.
    intros [= <- <-]. constructor.
    + unfold placed, slice. simpl. rewrite length_app, Nat.sub_diag. simpl.
      repeat split; try lia.
      rewrite firstn_app, Nat.sub_diag, firstn_all. simpl. apply app_nil_r.
    + eapply Forall2_impl; [|apply IH, E].
      intros c e. apply placed_shift.
Qed.

Lemma pack_buffer cs : forall offset entries buffer,
  pack offset cs = (entries, buffer) -> buffer = List.concat (map snd cs).
Proof.
  induction cs as [|[id bytes] rest IH]; simpl; intros offset entries buffer.
  - now intros [= <- <-].
  - destruct (pack (offset + List.length bytes) rest) as [es buf] eqn:E.
    intros [= <- <-]. f_equal. eapply IH, E.
Qed.

Lemma pack_ordered cs : forall offset entries buffer pre e1 mid e2 post,
  pack offset cs = (entries, buffer) ->
  entries = pre ++ e1 :: mid ++ e2 :: post ->
  w_offset e1 + w_length e1 <= w_offset e2.
Proof.
  induction cs as [|[id bytes] rest IH]; simpl;
    intros offset entries buffer pre e1 mid e2 post.
  - intros [= <- <-] H. now destruct pre.
  - destruct (pack (offset + List.length bytes) rest) as [es buf] eqn:E.
    intros [= <- <-] H. destruct pre as [|p pre]; simpl in H; injection H as H1 H2.
    + subst e1. simpl.
      assert (Hin : In e2 es). { rewrite H2. apply in_or_app. right. now left. }
      destruct (Forall2_In_r _ _ _ _ (pack_placed _ _ _ _ E) Hin)
        as (c & _ & _ & _ & Ho & _).
      exact Ho.
    + eapply IH; eauto.
Qed.

Lemma map_fst_constants g order :
  map fst (constants_in_order g order) =
  filter (fun id => match constant_data g id with Some _ => true | None => false end)
         (variables_in_order order).
Proof.
  unfold constants_in_order.
  induction (variables_in_order order) as [|id rest IH]; simpl; [reflexivity|].
  destruct (constant_data g id); simpl; now rewrite IH.
Qed.

Lemma in_constants g order id bytes :
  In (id, bytes) (constants_in_order g order) <->
  (exists o, In o order /\ In id (op_variables o)) /\
  constant_data g id = Some bytes.
Proof.
  unfold constants_in_order, variables_in_order.
  rewrite in_flat_map. split.
  - intros (x & Hx & Hin).
    apply in_first_occurrences in Hx; [|exact Nat.eqb_eq].
    apply in_flat_map in Hx.
    destruct (constant_data g x) eqn:E; simpl in Hin; [|contradiction].
    destruct Hin as [[= <- <-]|[]]. auto.
  - intros (Ho & Hc). exists id. split.
    + apply in_first_occurrences; [exact Nat.eqb_eq|]. now apply in_flat_map.
    + rewrite Hc. now left.
Qed.

Lemma NoDup_map_injective {A B} (f : A -> B) l x y :
  NoDup (map f l) -> In x l -> In y l -> f x = f y -> x = y.
Proof.
  induction l as [|a l IH]; simpl; [tauto|].
  intros Hn [<-|Hx] [<-|Hy] Hf; auto.
  - inversion Hn as [|? ? Hna _]; subst. exfalso. apply Hna.
    rewrite Hf. now apply in_map.
  - inversion Hn as [|? ? Hna _]; subst. exfalso. apply Hna.
    rewrite <- Hf. now apply in_map.
  - inversion Hn; subst. auto.
Qed.

(** C3.  After a successful generation, the weight entries of the
    Descriptor follow the constants of the lowered graph in traversal order,
    and the buffer is their data one after the other; a constant that an
    operator of the graph refers to has one entry and no second, which gives
    the place and length of its data in the buffer; every entry ends within
    the buffer; and an entry ends before a later one starts. *)
Theorem weights_packed_once_in_order
    (L : Lowering) (b : Backend) (g : Graph) (d : Descriptor)
    (buffer : list byte) :
  generate L b g = inr (d, buffer) ->
  exists order,
    topological_order g = inr order /\
    map w_variable (d_weights d) = map fst (constants_in_order g order) /\
    buffer = List.concat (map snd (constants_in_order g order)) /\
    (forall o id bytes,
       In o (g_operators g) -> In id (op_variables o) ->
       constant_data g id = Some bytes ->
       exists e,
         In e (d_weights d) /\ w_variable e = id /\
         w_length e = List.length bytes /\
         slice buffer (w_offset e) (w_length e) = bytes /\
         forall e', In e' (d_weights d) -> w_variable e' = id -> e' = e) /\
    (forall e, In e (d_weights d) ->
               w_offset e + w_length e <= List.length buffer) /\
    (forall pre e1 mid e2 post,
       d_weights d = pre ++ e1 :: mid ++ e2 :: post ->
       w_offset e1 + w_length e1 <= w_offset e2).
Proof.
  intros Hgen.
  destruct (generate_inversion _ _ _ _ _ Hgen)
    as (order & Ht & Hperm & _ & _ & Hpack).
  pose proof (pack_placed _ _ _ _ Hpack) as Hplaced.
  assert (Hvars : map w_variable (d_weights d) =
                  map fst (constants_in_order g order)).
  { clear -Hplaced. induction Hplaced as [|c e cs es (Hv & _) _ IH]; simpl;
      [reflexivity|]. now rewrite Hv, IH. }
  assert (Hnodup : NoDup (map w_variable (d_weights d))).
  { rewrite Hvars, map_fst_constants. apply NoDup_filter.
    apply NoDup_first_occurrences. exact Nat.eqb_eq. }
  exists order. repeat split.
  - exact Ht.
  - exact Hvars.
  - eapply pack_buffer, Hpack.
  - intros o id bytes Ho Hid Hc.
    assert (Hin : In (id, bytes) (constants_in_order g order)).
    { apply in_constants. split; [|exact Hc]. exists o. split; [|exact Hid].
      now rewrite <- Hperm. }
    destruct (Forall2_In_l _ _ _ _ Hplaced Hin)
      as (e & He & Hv & Hl & _ & _ & Hs).
    simpl in *. rewrite Nat.sub_0_r in Hs.
    exists e. repeat split; auto.
    intros e' He' Hv'. eapply NoDup_map_injective; eauto. congruence.
  - intros e He.
    destruct (Forall2_In_r _ _ _ _ Hplaced He) as (c & _ & _ & _ & _ & Hb & _).
    exact Hb.
  - intros pre e1 mid e2 post H. eapply pack_ordered; eauto.
Qed.

Lemma weights_packed_once_in_order_witness :
  exists d buffer order,
    generate Samples.sample_lowering Fallback Samples.two_layers = inr (d, buffer) /\
    topological_order Samples.two_layers = inr order /\
    map w_variable (d_weights d)
      = map fst (constants_in_order Samples.two_layers order) /\
    d_weights d = [mkWeightEntry 1 0 4; mkWeightEntry 4 4 3] /\
    buffer = [x01; x02; x03; x04; x0a; x0b; x0c].
Proof.
  destruct (generate Samples.sample_lowering Fallback Samples.two_layers)
    as [e|[d buffer]] eqn:E; [vm_compute in E; discriminate E|].
  destruct (weights_packed_once_in_order Samples.sample_lowering Fallback
              Samples.two_layers d buffer E)
    as (order & Ht & Hv & _).
  exists d, buffer, order.
  vm_compute in E. injection E as <- <-.
  repeat split; try assumption; reflexivity.
Defined.

(** The traversal of the sample graph starts with the first layer although
    the second was inserted first, and Fallback lowers it in that order. *)
Example two_layers_traversal :
  topological_order Samples.two_layers
  = inr [ mkOperator Linear [0; 1] [2]; mkOperator ReLU [2] [3];
          mkOperator Linear [3; 4] [5]; mkOperator ReLU [5] [6] ].
Proof. reflexivity. Qed.

Example two_layers_fallback :
  match generate Samples.sample_lowering Fallback Samples.two_layers with
  | inr (d, _) => map inv_implementation (d_invocations d)
  | inl _ => []
  end = ["linear"; "relu"; "linear"; "relu"].
Proof. reflexivity. Qed.

End GeneratorFacts.

(** * More facts about the driver *)

Module RunFacts.
Import ArgparseFacts DriverFacts.

#[local] Arguments bind : simpl never.
#[local] Arguments call : simpl never.
#[local] Arguments save_resnet : simpl never.
#[local] Arguments save_main : simpl never.

(** ** How a run can end *)

Lemma fails_only_ret {A} allowed (a : A) : fails_only allowed (ret a).
Proof. intros w tr f. discriminate. Qed.

Lemma fails_only_raise {A} (allowed : Failure -> Prop) (f : Failure) :
  allowed f -> fails_only allowed (@raise A f).
Proof. intros Hf w tr f'. simpl. now intros [= <-]. Qed.

Lemma fails_only_bind {A B} allowed (m : M A) (k : A -> M B) :
  fails_only allowed m -> (forall a, fails_only allowed (k a)) ->
  fails_only allowed (bind m k).
Proof.
  intros Hm Hk w tr f. unfold bind. specialize (Hm w tr).
  destruct (m w tr) as [[f'|a] tr'].
  - simpl in *. intros [= <-]. now apply Hm.
  - apply Hk.
Qed.

Lemma fails_only_bind_ret {A B} allowed (a : A) (k : A -> M B) :
  fails_only allowed (k a) -> fails_only allowed (bind (ret a) k).
Proof. intros Hk w tr f. apply Hk. Qed.

Lemma fails_only_call (allowed : Failure -> Prop) callee args :
  (forall what, allowed (LibraryError callee what)) ->
  fails_only allowed (call callee args).
Proof.
  intros Ha w tr f. unfold call. destruct (raises _ _ _); simpl.
  - intros [= <-]. apply Ha.
  - discriminate.
Qed.

Lemma fails_only_finally {A} allowed (body : M A) (cleanup : M unit) :
  fails_only allowed body -> fails_only allowed cleanup ->
  fails_only allowed (finally body cleanup).
Proof.
  intros Hb Hc w tr f. unfold finally.
  specialize (Hb w tr). destruct (body w tr) as [r tr'].
  specialize (Hc w tr'). destruct (cleanup w tr') as [[f'|u] tr'']; simpl in *.
  - intros [= <-]. now apply Hc.
  - apply Hb.
Qed.

Lemma fails_only_OUTPUT_DIR allowed : fails_only allowed OUTPUT_DIR.
Proof. intros w tr f. discriminate. Qed.

Lemma library_error_call callee what : library_error (LibraryError callee what).
Proof. now exists callee, what. Qed.

Ltac contain_after first_try :=
  repeat first
    [ first_try
    | apply fails_only_ret | apply fails_only_OUTPUT_DIR
    | apply fails_only_call; intros; apply library_error_call
    | apply fails_only_finally
    | apply fails_only_bind_ret; cbn
    | apply fails_only_bind; [|intros]
    | match goal with
      | |- fails_only _ (match ?x with _ => _ end) => destruct x
      end ].

Ltac contain := contain_after fail.

(** Once the generator has returned, only a library can fail. *)
Lemma write_artifacts_fails_only args out_dir descriptor data backend :
  getattr args "backend" = Some (VStr backend) ->
  fails_only library_error (write_artifacts args out_dir descriptor data).
Proof.
  intros Hb. unfold write_artifacts, with_open, attr. rewrite Hb. contain.
Qed.

Lemma save_resnet_fails_only args image nn_output descriptor data backend :
  getattr args "backend" = Some (VStr backend) ->
  fails_only library_error
    (save_resnet args (Some image) nn_output descriptor data).
Proof.
  intros Hb. unfold save_resnet, with_open, local.
  pose proof (fun o d1 d2 => write_artifacts_fails_only args o d1 d2 _ Hb) as Hw.
  contain_after ltac:(apply Hw).
Qed.

Lemma save_main_fails_only args dummy_output descriptor data backend :
  getattr args "backend" = Some (VStr backend) ->
  fails_only library_error (save_main args dummy_output descriptor data).
Proof.
  intros Hb. unfold save_main, with_open.
  pose proof (fun o d1 d2 => write_artifacts_fails_only args o d1 d2 _ Hb) as Hw.
  contain_after ltac:(apply Hw).
Qed.

(** The outcome of a finished run satisfies [O]. *)
Definition ends (O : Failure + unit -> Prop) (r : (Failure + unit) * Trace)
  : Prop := O (fst r).

Lemma ends_call O callee a (k : Val -> M unit) w tr :
  (forall what, O (inl (LibraryError callee what))) ->
  (forall tr', ends O (k (VCall callee a) w tr')) ->
  ends O (bind (call callee a) k w tr).
Proof.
  intros Hf Hk. unfold ends, bind, call.
  destruct (raises w callee a); simpl; [apply Hf|apply Hk].
Qed.

Lemma ends_tail O (m : M unit) w tr :
  fails_only library_error m ->
  (forall callee what, O (inl (LibraryError callee what))) ->
  O (inr tt) ->
  ends O (m w tr).
Proof.
  intros Hm Hf Hok. unfold ends. specialize (Hm w tr).
  destruct (m w tr) as [[f|[]] tr']; simpl in *; [|exact Hok].
  destruct (Hm f eq_refl) as (c & what & ->). apply Hf.
Qed.

Ltac neat := cbn -[ends].

Ltac outcome_holds :=
  cbn; first [exact I|assumption|solve [repeat split; simpl; intuition congruence]].

Ltac ends_step :=
  lazymatch goal with
  | |- ends _ (bind (call _ _) _ _ _) =>
      apply ends_call; [intros; outcome_holds|intros ?; neat]
  | |- ends _ (bind (ret _) _ _ _) => rewrite bind_ret; neat
  | |- ends _ (bind flags_DEBUG _ _ _) => rewrite bind_flags_DEBUG; neat
  | |- ends _ (bind (bind _ _) _ _ _) => rewrite bind_assoc; neat
  | |- ends _ (bind (raise _) _ _ _) =>
      rewrite bind_raise; unfold ends; outcome_holds
  | |- ends _ (bind (if (?x =? ?y) then _ else _) _ _ _) =>
      destruct (String.eqb_spec x y); neat
  | |- ends _ (bind (MLP_call _ _) _ _ _) => unfold MLP_call, field; neat
  | |- ends _ (bind (CNN_call _ _) _ _ _) => unfold CNN_call, field; neat
  | |- ends _ (bind (CNN2_call _ _) _ _ _) => unfold CNN2_call, field; neat
  | |- ends _ (bind (CNN3_call _ _) _ _ _) => unfold CNN3_call, field; neat
  | Hb : getattr ?args "backend" = _
    |- ends _ (save_resnet ?args _ _ _ _ _ _) =>
      apply ends_tail;
        [eapply save_resnet_fails_only, Hb|intros; outcome_holds|outcome_holds]
  | Hb : getattr ?args "backend" = _
    |- ends _ (save_main ?args _ _ _ _ _) =>
      apply ends_tail;
        [eapply save_main_fails_only, Hb|intros; outcome_holds|outcome_holds]
  end.

(** X1.  A run of [main_resnet] on an accepted argument vector ends
    normally or in the error of a library call: never in an exception of
    the driver's own (no unbound local, no missing attribute, no
    [NotImplementedError]) and never in [SystemExit]. *)
Theorem main_resnet_fails_only_in_libraries
    (argv : list string) (args : Namespace) (w : World) :
  parse_args main_resnet_parser argv = inr args ->
  match outcome (main_resnet argv) w with
  | inr _ => True
  | inl (LibraryError _ _) => True
  | inl _ => False
  end.
Proof.
  intros Hparse.
  destruct (main_resnet_parser_args _ _ Hparse) as (m & b & o & [Hm Hb Ho Hmc Hbc]).
  change (ends (fun r => match r with
                         | inr _ => True
                         | inl (LibraryError _ _) => True
                         | inl _ => False
                         end) (run (main_resnet argv) w)).
  unfold run. generalize (@nil Event). intros tr.
  unfold main_resnet, parse, convert, optimize_if_requested, generate,
    unpack2, attr.
  rewrite Hparse, bind_ret, Hm, Hb, Ho.
  destruct Hmc as [-> | ->]; neat; repeat ends_step;
    destruct (DEBUG w); neat; repeat ends_step;
    destruct o; neat; repeat ends_step;
    destruct Hbc as [-> | ->]; neat; repeat ends_step.
Qed.

Lemma main_resnet_fails_only_in_libraries_witness :
  match outcome (main_resnet Samples.resnet_argv) Samples.quiet_world with
  | inr _ => True
  | inl (LibraryError _ _) => True
  | inl _ => False
  end.
Proof.
  apply (main_resnet_fails_only_in_libraries Samples.resnet_argv
           (Samples.namespace_of main_resnet_parser Samples.resnet_argv)
           Samples.quiet_world).
  vm_compute. reflexivity.
Defined.

(** How a run of [main] can end, by the model name. *)
Lemma main_outcome_cases
    (argv : list string) (args : Namespace) (model : string) (w : World) :
  parse_args main_parser argv = inr args ->
  getattr args "model" = Some (VStr model) ->
  match outcome (main argv) w with
  | inr _ => In model ["MLP"; "CNN2"; "CNN3"]
  | inl (LibraryError _ _) => True
  | inl (UnboundLocalError line name) =>
      line = 161 /\ name = "link" /\ ~ In model ["MLP"; "CNN2"; "CNN3"]
  | inl _ => False
  end.
Proof.
  intros Hparse Hmodel.
  destruct (main_parser_args _ _ Hparse)
    as (m & mp & u & b & o & [Hm Hp Hu Hb Ho Hui Hbc]).
  rewrite Hmodel in Hm. injection Hm as <-.
  change (ends (fun r =>
                  match r with
                  | inr _ => In model ["MLP"; "CNN2"; "CNN3"]
                  | inl (LibraryError _ _) => True
                  | inl (UnboundLocalError line name) =>
                      line = 161 /\ name = "link" /\
                      ~ In model ["MLP"; "CNN2"; "CNN3"]
                  | inl _ => False
                  end) (run (main argv) w)).
  unfold run. generalize (@nil Event). intros tr.
  unfold main, parse, convert, optimize_if_requested, generate, unpack2, attr,
    MLP, CNN2, CNN3, Driver.Linear, Driver.Convolution2D.
  rewrite Hparse, bind_ret, Hmodel, Hp, Hu, Hb, Ho.
  neat; repeat ends_step;
    destruct o; neat; repeat ends_step;
    destruct Hbc as [-> | ->]; neat; repeat ends_step.
Qed.

(** X2.  A run of [main] on an accepted argument vector ends normally only
    for a model name among [MLP], [CNN2] and [CNN3]; otherwise it ends in the
    error of a library call, or, for a model name outside those three and
    for no other, in the [UnboundLocalError] of [link] at line 161.  It ends
    in no other exception. *)
Theorem main_ends_by_model
    (argv : list string) (args : Namespace) (model : string) (w : World) :
  parse_args main_parser argv = inr args ->
  getattr args "model" = Some (VStr model) ->
  match outcome (main argv) w with
  | inr _ => In model ["MLP"; "CNN2"; "CNN3"]
  | inl (LibraryError _ _) => True
  | inl (UnboundLocalError line name) =>
      line = 161 /\ name = "link" /\ ~ In model ["MLP"; "CNN2"; "CNN3"]
  | inl _ => False
  end.
Proof. exact (main_outcome_cases argv args model w). Qed.

Lemma main_ends_by_model_witness :
  match outcome (main Samples.mnist_argv) Samples.quiet_world with
  | inr _ => In "CNN3" ["MLP"; "CNN2"; "CNN3"]
  | inl (LibraryError _ _) => True
  | inl (UnboundLocalError line name) =>
      line = 161 /\ name = "link" /\ ~ In "CNN3" ["MLP"; "CNN2"; "CNN3"]
  | inl _ => False
  end.
Proof.
  apply (main_ends_by_model Samples.mnist_argv
           (Samples.namespace_of main_parser Samples.mnist_argv)
           "CNN3" Samples.quiet_world).
  - vm_compute. reflexivity.
  - vm_compute. reflexivity.
Defined.

(** ** A run that ends normally *)

Lemma unaffected_ret {A} (a : A) : unaffected (ret a).
Proof. intros w tr a' tr' H. exact H. Qed.

Lemma unaffected_raise {A} (f : Failure) : unaffected (@raise A f).
Proof. intros w tr a tr' H. discriminate H. Qed.

Lemma unaffected_bind {A B} (m : M A) (k : A -> M B) :
  unaffected m -> (forall a, unaffected (k a)) -> unaffected (bind m k).
Proof.
  intros Hm Hk w tr b tr'. unfold bind.
  destruct (m w tr) as [[f|a] tr1] eqn:E; [discriminate|].
  rewrite (Hm _ _ _ _ E). apply Hk.
Qed.

Lemma unaffected_call callee args : unaffected (call callee args).
Proof.
  intros w tr a tr'. unfold call. simpl.
  now destruct (raises w callee args).
Qed.

Lemma unaffected_flags_DEBUG : unaffected flags_DEBUG.
Proof. intros w tr a tr' H. exact H. Qed.

Lemma unaffected_OUTPUT_DIR : unaffected OUTPUT_DIR.
Proof. intros w tr a tr' H. exact H. Qed.

Lemma unaffected_finally {A} (body : M A) (cleanup : M unit) :
  unaffected body -> unaffected cleanup -> unaffected (finally body cleanup).
Proof.
  intros Hb Hc w tr a tr'. unfold finally.
  destruct (body w tr) as [r tr1] eqn:Eb.
  destruct (cleanup w tr1) as [[f|u] tr2] eqn:Ec; [discriminate|].
  intros [= -> ->]. now rewrite (Hb _ _ _ _ Eb), (Hc _ _ _ _ Ec).
Qed.

Lemma unaffected_local line name v : unaffected (local line name v).
Proof. destruct v; [apply unaffected_ret|apply unaffected_raise]. Qed.

Lemma unaffected_attr args name : unaffected (attr args name).
Proof.
  unfold attr. destruct (getattr args name);
    [apply unaffected_ret|apply unaffected_raise].
Qed.

Ltac calmly :=
  repeat first
    [ apply unaffected_ret | apply unaffected_raise | apply unaffected_call
    | apply unaffected_local | apply unaffected_attr
    | apply unaffected_flags_DEBUG | apply unaffected_OUTPUT_DIR
    | apply unaffected_finally
    | apply unaffected_bind; [|intros]
    | match goal with
      | |- unaffected (match ?x with _ => _ end) => destruct x
      end ].

(** The world decides only where a run stops: a run that returns made the
    calls it makes when every call returns. *)
Lemma enter_unaffected (e : EntryPoint) (argv : list string) :
  unaffected (enter e argv).
Proof.
  destruct e; unfold enter, main_resnet, main, parse, convert,
    optimize_if_requested, generate, unpack2, save_resnet,
    save_main, write_artifacts, with_open, apply_link, MLP, CNN2, CNN3,
    MLP_call, CNN_call, CNN2_call, CNN3_call, Driver.Linear,
    Driver.Convolution2D; calmly.
Qed.

Lemma normal_run_is_calm (e : EntryPoint) (argv : list string) (w : World) :
  outcome (enter e argv) w = inr tt ->
  run (enter e argv) w = run (enter e argv) (calm w).
Proof.
  unfold outcome, run. intros H.
  destruct (enter e argv w []) as [[f|[]] tr] eqn:E; [discriminate|].
  symmetry. now apply enter_unaffected.
Qed.

(** The trace of a normal run, ready to be computed: the fields of the
    namespace are put in place of the reads of [args]. *)
Ltac in_calm_world e Hparse Hnormal :=
  let Hcalm := fresh "Hcalm" in
  pose proof (normal_run_is_calm e _ _ Hnormal) as Hcalm;
  unfold trace; rewrite Hcalm; clear Hcalm;
  unfold run, enter, main_resnet, main, parse, save_resnet, save_main,
    write_artifacts, generate, optimize_if_requested, convert, attr;
  rewrite Hparse, bind_ret.



(** X4.  In a run that ends normally, what is saved is what the generator
    returned: the descriptor unpacked from its result is what
    [json.dump(..., indent=2)] receives, the data unpacked from it is what
    [tofile] is called on, and for WebGPU the text written to the kernel
    file is [concat_kernel_sources()] of that descriptor. *)
Theorem normal_run_saves_generator_output
    (e : EntryPoint) (argv : list string) (args : Namespace)
    (backend : string) (w : World) :
  parse_args (parser_of e) argv = inr args ->
  getattr args "backend" = Some (VStr backend) ->
  outcome (enter e argv) w = inr tt ->
  exists g,
    generator_call (trace (enter e argv) w) = Some g /\
    (exists f, first_call "json.dump(indent=2)" (trace (enter e argv) w)
               = Some ("json.dump(indent=2)",
                       [descriptor_of (result_of g); f])) /\
    (exists p, first_call "data.tofile" (trace (enter e argv) w)
               = Some ("data.tofile", [data_of (result_of g); VStr p])) /\
    (backend = "webgpu" ->
     exists f,
       first_call "file.write" (trace (enter e argv) w)
       = Some ("file.write",
               [f; VCall "descriptor.concat_kernel_sources"
                         [descriptor_of (result_of g)]])).
Proof.
  intros Hparse Hbackend Hnormal. destruct e; simpl in Hparse.
  - destruct (main_resnet_parser_args _ _ Hparse)
      as (m & b & o & [Hm Hb Ho Hmc Hbc]).
    rewrite Hbackend in Hb. injection Hb as <-.
    in_calm_world MainResnet Hparse Hnormal. rewrite Hm, Hbackend, Ho.
    destruct w as [[|] dir rs]; destruct Hmc as [-> | ->];
      destruct Hbc as [-> | ->]; destruct o; lazy -[path_join];
      (eexists; split; [reflexivity|]);
      (split; [eexists; reflexivity|]);
      (split; [eexists; reflexivity|]);
      first [discriminate|intros _; eexists; reflexivity].
  - destruct (main_parser_args _ _ Hparse)
      as (m & mp & u & b & o & [Hm Hp Hu Hb Ho Hui Hbc]).
    rewrite Hbackend in Hb. injection Hb as <-.
    pose proof (main_outcome_cases _ _ _ w Hparse Hm) as Hmodel.
    simpl in Hnormal. rewrite Hnormal in Hmodel.
    in_calm_world Main Hparse Hnormal. rewrite Hm, Hp, Hu, Hbackend, Ho.
    destruct w as [d dir rs];
      destruct Hmodel as [<- | [<- | [<- | []]]];
      destruct Hui as [-> | [z ->]];
      destruct Hbc as [-> | ->]; destruct o; lazy -[path_join];
      (eexists; split; [reflexivity|]);
      (split; [eexists; reflexivity|]);
      (split; [eexists; reflexivity|]);
      first [discriminate|intros _; eexists; reflexivity].
Qed.

Lemma normal_run_saves_generator_output_witness :
  exists g,
    generator_call (trace (enter Main Samples.mnist_argv) Samples.quiet_world)
    = Some g /\
    (exists f, first_call "json.dump(indent=2)"
                 (trace (enter Main Samples.mnist_argv) Samples.quiet_world)
               = Some ("json.dump(indent=2)",
                       [descriptor_of (result_of g); f])) /\
    (exists p, first_call "data.tofile"
                 (trace (enter Main Samples.mnist_argv) Samples.quiet_world)
               = Some ("data.tofile", [data_of (result_of g); VStr p])) /\
    ("fallback" = "webgpu" ->
     exists f,
       first_call "file.write"
         (trace (enter Main Samples.mnist_argv) Samples.quiet_world)
       = Some ("file.write",
               [f; VCall "descriptor.concat_kernel_sources"
                         [descriptor_of (result_of g)]])).
Proof.
  apply (normal_run_saves_generator_output Main Samples.mnist_argv
           (Samples.namespace_of main_parser Samples.mnist_argv)
           "fallback" Samples.quiet_world);
    vm_compute; reflexivity.
Defined.

(** ** Computations that only append *)

Section Appends.
Variable sel : Event -> bool.
Variable w : World.

Lemma appends_ret {A} (a : A) : appends sel w (ret a).
Proof. intros tr. exists []. now rewrite app_nil_r. Qed.

Lemma appends_raise {A} (f : Failure) : appends sel w (@raise A f).
Proof. intros tr. exists []. now rewrite app_nil_r. Qed.

Lemma appends_bind {A B} (m : M A) (k : A -> M B) :
  appends sel w m -> (forall a, appends sel w (k a)) -> appends sel w (bind m k).
Proof.
  intros Hm Hk tr. unfold bind. destruct (Hm tr) as (more1 & E1 & F1).
  destruct (m w tr) as [[f|a] tr1]; simpl in *; [eauto|].
  destruct (Hk a tr1) as (more2 & E2 & F2).
  exists (more1 ++ more2). rewrite E2, E1, app_assoc, filter_app, F1, F2.
  auto.
Qed.

Lemma appends_call callee args :
  sel (callee, args) = false -> appends sel w (call callee args).
Proof.
  intros Hs tr. exists [(callee, args)]. unfold call.
  destruct (raises w callee args); simpl; now rewrite Hs.
Qed.

Lemma appends_local line name v : appends sel w (local line name v).
Proof. destruct v; [apply appends_ret|apply appends_raise]. Qed.

Lemma appends_attr args name : appends sel w (attr args name).
Proof.
  unfold attr. destruct (getattr args name);
    [apply appends_ret|apply appends_raise].
Qed.

Lemma appends_flags_DEBUG : appends sel w flags_DEBUG.
Proof. intros tr. exists []. now rewrite app_nil_r. Qed.

Lemma appends_OUTPUT_DIR : appends sel w OUTPUT_DIR.
Proof. intros tr. exists []. now rewrite app_nil_r. Qed.

Lemma appends_finally {A} (body : M A) (cleanup : M unit) :
  appends sel w body -> appends sel w cleanup ->
  appends sel w (finally body cleanup).
Proof.
  intros Hb Hc tr. unfold finally. destruct (Hb tr) as (more1 & E1 & F1).
  destruct (body w tr) as [r tr1]. simpl in E1.
  destruct (Hc tr1) as (more2 & E2 & F2).
  exists (more1 ++ more2).
  destruct (cleanup w tr1) as [[f|u] tr2]; simpl in *;
    rewrite E2, E1, app_assoc, filter_app, F1, F2; auto.
Qed.
End Appends.

Ltac append_only :=
  repeat first
    [ apply appends_ret | apply appends_raise | apply appends_local
    | apply appends_attr | apply appends_flags_DEBUG | apply appends_OUTPUT_DIR
    | apply appends_call; reflexivity
    | apply appends_finally
    | apply appends_bind; [|intros]
    | match goal with
      | |- appends _ _ (match ?x with _ => _ end) => destruct x
      end ].

Ltac unfold_driver :=
  unfold enter, main_resnet, main, parse, convert, optimize_if_requested,
    generate, unpack2, save_resnet, save_main, write_artifacts, with_open,
    apply_link, MLP, CNN2, CNN3, MLP_call, CNN_call, CNN2_call, CNN3_call,
    Driver.Linear, Driver.Convolution2D.

(** ** What comes before what *)

Section Precedes.
Variables gate later : Event -> bool.
Variable w : World.

Lemma precedes_nil : precedes gate later [].
Proof. intros before e after H. now destruct before. Qed.

(** Appending events that are not [later] keeps the order. *)
Lemma precedes_quiet tr more :
  precedes gate later tr -> filter later more = [] ->
  precedes gate later (tr ++ more).
Proof.
  intros Hp Hf before e after Hsplit He.
  assert (Hnot : ~ In e more).
  { intros Hin. assert (Hin' : In e (filter later more)) by now apply filter_In.
    now rewrite Hf in Hin'. }
  apply app_eq_app in Hsplit as [l [[Htr Hrest]|[Hbefore Hmore]]].
  - destruct l as [|x l]; simpl in Hrest.
    + exfalso. apply Hnot. rewrite <- Hrest. now left.
    + injection Hrest as <- _. eapply Hp; eauto.
  - exfalso. apply Hnot. rewrite Hmore. apply in_or_app. right. now left.
Qed.

(** Once the gate has been passed, anything may follow. *)
Lemma precedes_after_gate tr more :
  precedes gate later tr -> existsb gate tr = true ->
  precedes gate later (tr ++ more).
Proof.
  intros Hp Hg before e after Hsplit He.
  apply app_eq_app in Hsplit as [l [[Htr Hrest]|[Hbefore Hmore]]].
  - destruct l as [|x l]; simpl in Hrest.
    + rewrite app_nil_r in Htr. now subst.
    + injection Hrest as <- _. eapply Hp; eauto.
  - subst before. rewrite existsb_app, Hg. reflexivity.
Qed.

Lemma keeps_quiet {A} (m : M A) :
  appends later w m ->
  keeps w (precedes gate later) (precedes gate later) m.
Proof.
  intros Hm tr Hp. destruct (Hm tr) as (more & -> & Hf).
  now apply precedes_quiet.
Qed.

Lemma keeps_bind {A B} (m : M A) (k : A -> M B) :
  keeps w (precedes gate later) (precedes gate later) m ->
  (forall a, keeps w (precedes gate later) (precedes gate later) (k a)) ->
  keeps w (precedes gate later) (precedes gate later) (bind m k).
Proof.
  intros Hm Hk tr Hp. unfold bind. specialize (Hm tr Hp).
  destruct (m w tr) as [[f|a] tr1]; simpl in *; [assumption|].
  now apply Hk.
Qed.

Lemma keeps_bind_OUTPUT_DIR {B} (k : string -> M B) :
  keeps w (precedes gate later) (precedes gate later) (k (output_dir w)) ->
  keeps w (precedes gate later) (precedes gate later) (bind OUTPUT_DIR k).
Proof. intros Hk tr Hp. now apply Hk. Qed.

(** The gate itself: what follows it only has to append. *)
Lemma keeps_gate {B} callee args (k : Val -> M B) :
  gate (callee, args) = true -> later (callee, args) = false ->
  (forall a, appends (fun _ => false) w (k a)) ->
  keeps w (precedes gate later) (precedes gate later)
        (bind (call callee args) k).
Proof.
  intros Hg Hl Hk tr Hp. unfold bind, call.
  assert (Hp1 : precedes gate later (tr ++ [(callee, args)])).
  { apply precedes_quiet; [assumption|]. simpl. now rewrite Hl. }
  destruct (raises w callee args); simpl; [assumption|].
  destruct (Hk (VCall callee args) (tr ++ [(callee, args)])) as (more & -> & _).
  apply precedes_after_gate; [assumption|].
  rewrite existsb_app. simpl. rewrite Hg. now rewrite orb_true_r.
Qed.
End Precedes.

Ltac in_sequence gate_holds :=
  repeat first
    [ apply keeps_gate; [gate_holds|reflexivity|intros; append_only]
    | apply keeps_bind_OUTPUT_DIR
    | apply keeps_bind; [|intros]
    | apply keeps_quiet; solve [append_only]
    | match goal with
      | |- keeps _ _ _ (match ?x with _ => _ end) => destruct x
      end ].



(** X6.  However a run of [main] goes, no call of the forward pass of the
    model is made before [chainer.serializers.load_npz] has been called: the
    graph is traced with the weights of [model_path] loaded. *)
Theorem load_npz_before_forward_pass (argv : list string) (w : World) :
  precedes is_load_npz is_forward (trace (main argv) w).
Proof.
  unfold trace, run.
  assert (H : keeps w (precedes is_load_npz is_forward)
                      (precedes is_load_npz is_forward) (main argv)).
  { unfold_driver; in_sequence reflexivity. }
  apply H, precedes_nil.
Qed.

(** ** Files are closed *)

Lemma Closed_quiet w tr more :
  Closed w tr -> filter is_handle_event more = [] -> Closed w (tr ++ more).
Proof.
  intros Hc. induction more as [|x more IH] using rev_ind; intros Hf.
  - now rewrite app_nil_r.
  - rewrite filter_app in Hf. apply app_eq_nil in Hf as [Hf1 Hf2].
    rewrite app_assoc. apply Closed_other; [auto|].
    simpl in Hf2. now destruct (is_handle_event x).
Qed.

Lemma closed_quiet {A} w (m : M A) :
  appends is_handle_event w m -> keeps w (Closed w) (Closed w) m.
Proof.
  intros Hm tr Hc. destruct (Hm tr) as (more & -> & Hf).
  now apply Closed_quiet.
Qed.

Lemma closed_bind {A B} w (m : M A) (k : A -> M B) :
  keeps w (Closed w) (Closed w) m ->
  (forall a, keeps w (Closed w) (Closed w) (k a)) ->
  keeps w (Closed w) (Closed w) (bind m k).
Proof.
  intros Hm Hk tr Hc. unfold bind. specialize (Hm tr Hc).
  destruct (m w tr) as [[f|a] tr1]; simpl in *; [assumption|].
  now apply Hk.
Qed.

(** A [with] block closes its file, whatever its body does. *)
Lemma closed_with_open w path body :
  (forall f, appends is_handle_event w (body f)) ->
  keeps w (Closed w) (Closed w) (with_open path body).
Proof.
  intros Hb tr Hc. unfold with_open, bind, call, finally.
  destruct (raises w "open" [VStr path; VStr "w"]) as [what|] eqn:Eo; simpl.
  - eapply Closed_failed_open; eauto.
  - destruct (Hb (VCall "open" [VStr path; VStr "w"])
                 (tr ++ [("open", [VStr path; VStr "w"])]))
      as (more & Em & Hf).
    destruct (body _ w _) as [r tr1]. simpl in Em. subst tr1.
    assert (Hall : Closed w ((tr ++ [("open", [VStr path; VStr "w"])]) ++ more
                             ++ [("file.close",
                                  [VCall "open" [VStr path; VStr "w"]])])).
    { rewrite <- app_assoc. simpl. now apply Closed_with. }
    rewrite app_assoc in Hall.
    destruct (raises w "file.close" _); simpl; exact Hall.
Qed.

Ltac closing :=
  repeat first
    [ apply closed_with_open; intros; solve [append_only]
    | apply closed_bind; [|intros]
    | apply closed_quiet; solve [append_only]
    | match goal with
      | |- keeps _ _ _ (match ?x with _ => _ end) => destruct x
      end ].

(** X7.  However a run of either entry point ends, every file it opened
    has been closed: an [open] that returned is followed by the calls that
    fill the file, none of which opens or closes a file, and then by the
    [close] of that file, also when one of those calls raised. *)
Theorem every_opened_file_is_closed
    (e : EntryPoint) (argv : list string) (w : World) :
  Closed w (trace (enter e argv) w).
Proof.
  unfold trace, run.
  assert (H : keeps w (Closed w) (Closed w) (enter e argv)).
  { destruct e;
      unfold enter, main_resnet, main, parse, convert, optimize_if_requested,
        generate, unpack2, save_resnet, save_main, write_artifacts,
        apply_link, MLP, CNN2, CNN3, MLP_call, CNN_call, CNN2_call, CNN3_call,
        Driver.Linear, Driver.Convolution2D;
      closing. }
  apply H. constructor.
Qed.

(** ** Where a run writes *)

Lemma silent_bind_ret {A B} sel w (a : A) (k : A -> M B) :
  silent sel w (k a) -> silent sel w (bind (ret a) k).
Proof. intros H tr. apply H. Qed.

Lemma silent_bind_OUTPUT_DIR {B} sel w (k : string -> M B) :
  silent sel w (k (output_dir w)) -> silent sel w (bind OUTPUT_DIR k).
Proof. intros H tr. apply H. Qed.

Lemma silent_never {A} sel w (m : M A) ev :
  silent sel w m -> In ev (trace m w) -> sel ev = false.
Proof.
  intros H Hin. unfold trace, run in Hin. specialize (H []). simpl in H.
  destruct (sel ev) eqn:E; [|reflexivity].
  assert (Hf : In ev (filter sel (snd (m w [])))) by (apply filter_In; auto).
  rewrite H in Hf. destruct Hf.
Qed.

Lemma not_stray_open w e backend n :
  In n (own_files e ++ artifact_files backend) ->
  stray w e backend ("open", [VStr (path_join (output_dir w) n); VStr "w"])
  = false.
Proof.
  intros Hin. unfold stray. cbn [fst snd].
  change ("open" =? "open")%string with true.
  change ("w" =? "w")%string with true. cbn [andb].
  apply negb_false_iff, existsb_exists. exists n. split; [assumption|].
  apply String.eqb_refl.
Qed.

Lemma not_stray_tofile w e backend d :
  stray w e backend
        ("data.tofile",
         [d; VStr (path_join (output_dir w) ("weight_" ++ backend ++ ".bin"))])
  = false.
Proof.
  unfold stray. cbn [fst snd].
  change ("data.tofile" =? "open")%string with false.
  change ("data.tofile" =? "data.tofile")%string with true. cbn iota.
  apply negb_false_iff, String.eqb_refl.
Qed.

Lemma not_stray_kernels w e a :
  stray w e "webgpu" ("descriptor.concat_kernel_sources", a) = false.
Proof. reflexivity. Qed.

(** What [stray] says of a call it lets pass. *)
Lemma stray_false w e backend callee a :
  stray w e backend (callee, a) = false ->
  (callee = "open" ->
   exists n, In n (own_files e ++ artifact_files backend) /\
             a = [VStr (path_join (output_dir w) n); VStr "w"]) /\
  (callee = "data.tofile" ->
   exists d, a = [d; VStr (path_join (output_dir w)
                                     ("weight_" ++ backend ++ ".bin"))]) /\
  (callee = "descriptor.concat_kernel_sources" -> backend = "webgpu").
Proof.
  intros Hs. unfold stray in Hs. cbn [fst snd] in Hs.
  repeat split; intros ->.
  - change ("open" =? "open")%string with true in Hs. cbn iota in Hs.
    destruct a as [|[| | |p| |] [|[| | |mode| |] [|? ?]]];
      try discriminate.
    apply negb_false_iff, andb_true_iff in Hs as [Hm Hn].
    apply String.eqb_eq in Hm. subst mode.
    apply existsb_exists in Hn as (n & Hin & Hp).
    apply String.eqb_eq in Hp. subst p. now exists n.
  - change ("data.tofile" =? "open")%string with false in Hs.
    change ("data.tofile" =? "data.tofile")%string with true in Hs.
    cbn iota in Hs.
    destruct a as [|d [|[| | |p| |] [|? ?]]]; try discriminate.
    apply negb_false_iff, String.eqb_eq in Hs. subst p. now exists d.
  - change ("descriptor.concat_kernel_sources" =? "open")%string
      with false in Hs.
    change ("descriptor.concat_kernel_sources" =? "data.tofile")%string
      with false in Hs.
    change ("descriptor.concat_kernel_sources"
            =? "descriptor.concat_kernel_sources")%string with true in Hs.
    cbn iota in Hs. apply negb_false_iff in Hs. now apply String.eqb_eq.
Qed.

Ltac known_file :=
  apply in_or_app; simpl; auto.

Ltac tidy :=
  repeat first
    [ apply silent_bind_ret; cbn beta
    | match goal with
      | E : (?b =? ?s)%string = _
        |- silent _ _ (if eq_str (VStr ?b) ?s then _ else _) =>
          unfold eq_str at 1; rewrite E
      end
    | apply silent_bind_OUTPUT_DIR
    | apply silent_ret | apply silent_raise | apply silent_local
    | apply silent_flags_DEBUG
    | apply silent_call;
      first [ reflexivity
            | apply not_stray_tofile
            | apply not_stray_open; solve [known_file] ]
    | apply silent_finally
    | apply silent_bind; [|intros]
    | match goal with
      | |- silent _ _ (match ?x with _ => _ end) => destruct x
      end ].

Lemma no_stray_call (e : EntryPoint) (argv : list string) (args : Namespace)
    (backend : string) (w : World) :
  parse_args (parser_of e) argv = inr args ->
  getattr args "backend" = Some (VStr backend) ->
  silent (stray w e backend) w (enter e argv).
Proof.
  intros Hparse Hb.
  destruct (backend =? "webgpu")%string eqn:E.
  - apply String.eqb_eq in E. subst backend.
    destruct e; simpl in Hparse; unfold_driver; rewrite Hparse;
      apply silent_bind_ret; unfold attr; rewrite Hb;
      cbn [eq_str format1]; simpl String.eqb; simpl String.append; tidy.
  - destruct e; simpl in Hparse; unfold_driver; rewrite Hparse;
      apply silent_bind_ret; unfold attr; rewrite Hb;
      unfold format1; tidy.
Qed.

(** X8.  Whatever the libraries do, a run whose arguments parse writes
    nowhere but into [OUTPUT_DIR]: every [open] is for writing, to one of
    the files of the entry point or of the chosen backend; the one
    [tofile] goes to the weight file of that backend; and
    [concat_kernel_sources] is asked of the descriptor for WebGPU only. *)
Theorem run_writes_only_its_files
    (e : EntryPoint) (argv : list string) (args : Namespace)
    (backend : string) (w : World) :
  parse_args (parser_of e) argv = inr args ->
  getattr args "backend" = Some (VStr backend) ->
  forall callee a,
    In (callee, a) (trace (enter e argv) w) ->
    (callee = "open" ->
     exists n, In n (own_files e ++ artifact_files backend) /\
               a = [VStr (path_join (output_dir w) n); VStr "w"]) /\
    (callee = "data.tofile" ->
     exists d, a = [d; VStr (path_join (output_dir w)
                                       ("weight_" ++ backend ++ ".bin"))]) /\
    (callee = "descriptor.concat_kernel_sources" -> backend = "webgpu").
Proof.
  intros Hparse Hb callee a Hin.
  apply stray_false.
  exact (silent_never _ _ _ _ (no_stray_call e argv args backend w Hparse Hb)
                      Hin).
Qed.

Lemma run_writes_only_its_files_witness :
  exists n,
    In n (own_files Main ++ artifact_files "fallback") /\
    [VStr (path_join (output_dir Samples.quiet_world) "mnist_out.json");
     VStr "w"]
    = [VStr (path_join (output_dir Samples.quiet_world) n); VStr "w"].
Proof.
  refine (proj1 (run_writes_only_its_files Main Samples.mnist_argv
                   (Samples.namespace_of main_parser Samples.mnist_argv)
                   "fallback" Samples.quiet_world _ _ "open"
                   [VStr (path_join (output_dir Samples.quiet_world)
                                    "mnist_out.json");
                    VStr "w"] _) eq_refl).
  - vm_compute. reflexivity.
  - vm_compute. reflexivity.
  - vm_compute. repeat first [left; reflexivity | right].
Defined.

(** ** What a normal run dumps, loads and saves *)

Lemma normal_run_parses (e : EntryPoint) (argv : list string) (w : World) :
  outcome (enter e argv) w = inr tt ->
  exists args, parse_args (parser_of e) argv = inr args.
Proof.
  intros Hnormal.
  destruct (parse_args (parser_of e) argv) as [code|args] eqn:Hparse;
    [exfalso|now exists args].
  destruct e; simpl in Hparse;
    unfold outcome, run, enter, main_resnet, main, parse in Hnormal;
    rewrite Hparse, bind_raise in Hnormal; discriminate.
Qed.

(** X9.  The graph dumps of a run that ends normally.  [main_resnet]
    dumps once, the graph the converter returned, and only when
    [flags.DEBUG] is set; [main] does not look at the flag and dumps twice:
    the graph the converter returned, and then the graph it hands to the
    generator. *)
Theorem dumps_of_a_normal_run
    (e : EntryPoint) (argv : list string) (w : World) :
  outcome (enter e argv) w = inr tt ->
  exists c g,
    first_call CONVERT (trace (enter e argv) w) = Some c /\
    generator_call (trace (enter e argv) w) = Some g /\
    dump_events (trace (enter e argv) w)
    = match e with
      | MainResnet => if DEBUG w then [(DUMP, [result_of c])] else []
      | Main => [(DUMP, [result_of c]); (DUMP, snd g)]
      end.
Proof.
  intros Hnormal. destruct (normal_run_parses _ _ _ Hnormal) as [args Hparse].
  destruct e; simpl in Hparse.
  - destruct (main_resnet_parser_args _ _ Hparse)
      as (m & b & o & [Hm Hb Ho Hmc Hbc]).
    in_calm_world MainResnet Hparse Hnormal. rewrite Hm, Hb, Ho.
    destruct w as [[|] dir rs]; destruct Hmc as [-> | ->];
      destruct Hbc as [-> | ->]; destruct o; lazy -[path_join];
      do 2 eexists; repeat split; reflexivity.
  - destruct (main_parser_args _ _ Hparse)
      as (m & mp & u & b & o & [Hm Hp Hu Hb Ho Hui Hbc]).
    pose proof (main_outcome_cases _ _ _ w Hparse Hm) as Hmodel.
    simpl in Hnormal. rewrite Hnormal in Hmodel.
    in_calm_world Main Hparse Hnormal. rewrite Hm, Hp, Hu, Hb, Ho.
    destruct w as [d dir rs];
      destruct Hmodel as [<- | [<- | [<- | []]]];
      destruct Hui as [-> | [z ->]];
      destruct Hbc as [-> | ->]; destruct o; lazy -[path_join];
      do 2 eexists; repeat split; reflexivity.
Qed.

Lemma dumps_of_a_normal_run_witness :
  exists c g,
    first_call CONVERT (trace (enter Main Samples.mnist_argv) Samples.quiet_world)
    = Some c /\
    generator_call (trace (enter Main Samples.mnist_argv) Samples.quiet_world)
    = Some g /\
    dump_events (trace (enter Main Samples.mnist_argv) Samples.quiet_world)
    = [(DUMP, [result_of c]); (DUMP, snd g)].
Proof.
  apply (dumps_of_a_normal_run Main Samples.mnist_argv Samples.quiet_world).
  vm_compute. reflexivity.
Defined.

(** X10.  With [flags.DEBUG] off, no run of [main_resnet] dumps the
    graph, wherever the run ends. *)
Theorem main_resnet_never_dumps_without_DEBUG
    (argv : list string) (w : World) :
  DEBUG w = false ->
  forall ev, In ev (trace (main_resnet argv) w) -> fst ev <> DUMP.
Proof.
  intros Hd ev Hin Hdump.
  assert (Hf : In ev (dump_events (trace (main_resnet argv) w))).
  { apply filter_In. split; [assumption|].
    unfold is_dump. rewrite Hdump. apply String.eqb_refl. }
  rewrite (main_resnet_quiet_without_DEBUG argv w Hd) in Hf. destruct Hf.
Qed.

Lemma main_resnet_never_dumps_without_DEBUG_witness :
  fst ("ChainerGraphConverter", @nil Val) <> DUMP.
Proof.
  apply (main_resnet_never_dumps_without_DEBUG
           Samples.resnet_argv Samples.quiet_world);
    [reflexivity|].
  vm_compute. repeat first [left; reflexivity | right].
Defined.

(** X11.  A run of [main] that ends normally has loaded the weights file
    named on the command line into an instance of the class named there,
    and its forward pass applies the links of that very instance, each
    once and in the order the constructor declared them. *)
Theorem main_loads_the_model_it_runs
    (argv : list string) (args : Namespace) (model model_path : string)
    (w : World) :
  parse_args main_parser argv = inr args ->
  getattr args "model" = Some (VStr model) ->
  getattr args "model_path" = Some (VStr model_path) ->
  outcome (main argv) w = inr tt ->
  exists self,
    first_call "chainer.serializers.load_npz" (trace (main argv) w)
    = Some ("chainer.serializers.load_npz",
            [VStr model_path; VCall model self]) /\
    applied_links (trace (main argv) w) = self.
Proof.
  intros Hparse Hmod Hpath Hnormal.
  destruct (main_parser_args _ _ Hparse)
    as (m & mp & u & b & o & [Hm Hp Hu Hb Ho Hui Hbc]).
  pose proof (main_outcome_cases _ _ _ w Hparse Hmod) as Hmodel.
  rewrite Hnormal in Hmodel.
  change (main argv) with (enter Main argv) in Hnormal |- *.
  in_calm_world Main Hparse Hnormal. rewrite Hmod, Hpath, Hu, Hb, Ho.
  destruct w as [d dir rs];
    destruct Hmodel as [<- | [<- | [<- | []]]];
    destruct Hui as [-> | [z ->]];
    destruct Hbc as [-> | ->]; destruct o; lazy -[path_join];
    eexists; split; reflexivity.
Qed.

Lemma main_loads_the_model_it_runs_witness :
  exists self,
    first_call "chainer.serializers.load_npz"
               (trace (main Samples.mnist_argv) Samples.quiet_world)
    = Some ("chainer.serializers.load_npz",
            [VStr "cnn3.npz"; VCall "CNN3" self]) /\
    applied_links (trace (main Samples.mnist_argv) Samples.quiet_world) = self.
Proof.
  apply (main_loads_the_model_it_runs Samples.mnist_argv
           (Samples.namespace_of main_parser Samples.mnist_argv)
           "CNN3" "cnn3.npz" Samples.quiet_world);
    vm_compute; reflexivity.
Defined.

(** X12.  What a normal run saves beside the graph is computed from the
    variables it converted.  The converter receives the computational
    graph built from the output variable, with the input and the output
    variable.  [main] saves the flattened data of that output in
    [mnist_out.json]; [main_resnet] saves the data of that output in
    [fc6.json], whichever layer was asked for, and in [image_nhwc.json]
    the image of the input variable, transposed to height, width,
    channel and flattened. *)
Theorem normal_run_saves_the_converted_output
    (e : EntryPoint) (argv : list string) (w : World) :
  outcome (enter e argv) w = inr tt ->
  exists converter x y,
    first_call CONVERT (trace (enter e argv) w)
    = Some (CONVERT,
            [converter;
             VCall "chainer.computational_graph.build_computational_graph"
                   [VList [y]];
             VList [x]; VList [y]]) /\
    match e with
    | MainResnet =>
        exists image,
          x = VCall "chainer.Variable"
                    [VCall "np.array(dtype=np.float32)" [VList [image]]] /\
          json_dumps (trace (enter e argv) w)
          = [[VCall "tolist"
                [VCall "flatten"
                   [VCall "np.transpose"
                          [image; VList [VInt 1; VInt 2; VInt 0]]]];
              output_file w "image_nhwc.json"];
             [VCall "tolist" [VCall ".data" [y]]; output_file w "fc6.json"]]
    | Main =>
        json_dumps (trace (enter e argv) w)
        = [[VCall "tolist" [VCall "flatten" [VCall ".data" [y]]];
            output_file w "mnist_out.json"]]
    end.
Proof.
  intros Hnormal. destruct (normal_run_parses _ _ _ Hnormal) as [args Hparse].
  destruct e; simpl in Hparse.
  - destruct (main_resnet_parser_args _ _ Hparse)
      as (m & b & o & [Hm Hb Ho Hmc Hbc]).
    in_calm_world MainResnet Hparse Hnormal. rewrite Hm, Hb, Ho.
    destruct w as [[|] dir rs]; destruct Hmc as [-> | ->];
      destruct Hbc as [-> | ->]; destruct o; lazy -[path_join];
      do 3 eexists; (split; [reflexivity|]);
      eexists; split; reflexivity.
  - destruct (main_parser_args _ _ Hparse)
      as (m & mp & u & b & o & [Hm Hp Hu Hb Ho Hui Hbc]).
    pose proof (main_outcome_cases _ _ _ w Hparse Hm) as Hmodel.
    simpl in Hnormal. rewrite Hnormal in Hmodel.
    in_calm_world Main Hparse Hnormal. rewrite Hm, Hp, Hu, Hb, Ho.
    destruct w as [d dir rs];
      destruct Hmodel as [<- | [<- | [<- | []]]];
      destruct Hui as [-> | [z ->]];
      destruct Hbc as [-> | ->]; destruct o; lazy -[path_join];
      do 3 eexists; split; reflexivity.
Qed.

Lemma normal_run_saves_the_converted_output_witness :
  exists converter x y,
    first_call CONVERT
      (trace (enter Main Samples.mnist_argv) Samples.quiet_world)
    = Some (CONVERT,
            [converter;
             VCall "chainer.computational_graph.build_computational_graph"
                   [VList [y]];
             VList [x]; VList [y]]) /\
    json_dumps (trace (enter Main Samples.mnist_argv) Samples.quiet_world)
    = [[VCall "tolist" [VCall "flatten" [VCall ".data" [y]]];
        output_file Samples.quiet_world "mnist_out.json"]].
Proof.
  apply (normal_run_saves_the_converted_output
           Main Samples.mnist_argv Samples.quiet_world).
  vm_compute. reflexivity.
Defined.

End RunFacts.
